(** * httpcloak: header coherence, speculative TLS over CONNECT, dial budgets,
      session state and the SOCKS5 UDP header.

    A shallow embedding of the parts of the Go sources that the checked
    properties talk about, followed by the properties themselves.

    Conventions.
    - Go [int] / [time.Duration] values are [Z]; byte slices are
      [list byte]; Go [string]s are [string]; [map[string]string] is
      [gmap string string].
    - A Go method that mutates its receiver becomes a function that returns
      the new receiver next to its results.
    - [len(b)] of a caller-supplied read buffer is the only thing the code
      looks at before overwriting it, so a read buffer is passed as its
      capacity and the bytes copied into it are returned. *)

From Stdlib Require Import ZArith Lia Strings.Byte Strings.String Strings.Ascii.
From stdpp Require Import base option list gmap strings.

Local Open Scope Z_scope.

#[global] Instance byte_eq_dec : EqDecision byte := Byte.byte_eq_dec.

(* ===================================================================== *)
(** * fingerprint: request contexts and header coherence (session/state.go) *)
(* ===================================================================== *)

Module Fingerprint.

(** [type FetchMode string], [type FetchDest string], [type FetchSite string]:
    defined string types, so any string inhabits them. *)
Definition FetchMode := string.
Definition FetchDest := string.
Definition FetchSite := string.

Definition FetchModeNavigate : FetchMode := "navigate".
Definition FetchModeCORS : FetchMode := "cors".
Definition FetchModeNoCORS : FetchMode := "no-cors".
Definition FetchModeSameOrigin : FetchMode := "same-origin".
Definition FetchModeWebSocket : FetchMode := "websocket".

Definition FetchDestDocument : FetchDest := "document".
Definition FetchDestImage : FetchDest := "image".
Definition FetchDestScript : FetchDest := "script".
Definition FetchDestStyle : FetchDest := "style".
Definition FetchDestXHR : FetchDest := "empty".

Definition FetchSiteNone : FetchSite := "none".
Definition FetchSiteSameOrigin : FetchSite := "same-origin".
Definition FetchSiteSameSite : FetchSite := "same-site".
Definition FetchSiteCrossSite : FetchSite := "cross-site".

Record RequestContext := {
  Mode : FetchMode;
  Dest : FetchDest;
  Site : FetchSite;
  IsUserTriggered : bool;
  Referrer : string;
  TargetURL : string;
}.

Definition NavigationContext : RequestContext :=
  {| Mode := FetchModeNavigate; Dest := FetchDestDocument;
     Site := FetchSiteNone; IsUserTriggered := true;
     Referrer := ""; TargetURL := "" |}.

Record SecFetchHeaders := {
  sfSite : string;
  sfMode : string;
  sfDest : string;
  sfUser : string;  (* "?1" for user-triggered, empty otherwise *)
}.

(** [GenerateSecFetchHeaders]: the [User] field keeps its zero value [""]
    unless the request is a user-triggered navigation. *)
Definition GenerateSecFetchHeaders (ctx : RequestContext) : SecFetchHeaders :=
  {| sfSite := Site ctx;
     sfMode := Mode ctx;
     sfDest := Dest ctx;
     sfUser := if IsUserTriggered ctx && bool_decide (Mode ctx = FetchModeNavigate)
               then "?1" else "" |}.

Definition AcceptNavigate : string :=
  "text/html,application/xhtml+xml,application/xml;q=0.9,image/avif,image/webp,image/apng,*/*;q=0.8,application/signed-exchange;v=b3;q=0.7".
Definition AcceptImage : string :=
  "image/avif,image/webp,image/apng,image/svg+xml,image/*,*/*;q=0.8".
Definition AcceptStyle : string := "text/css,*/*;q=0.1".
Definition AcceptAny : string := "*/*".

(** The [switch ctx.Mode] of [ApplyToHeaders].  It has three arms
    (navigate; cors, same-origin; no-cors) and no [default]: any other mode,
    [FetchModeWebSocket] included, falls through with the map untouched. *)
Definition applyContextSpecific (headers : gmap string string)
    (ctx : RequestContext) : gmap string string :=
  if bool_decide (Mode ctx = FetchModeNavigate) then
    <["Accept" := AcceptNavigate]> (<["Upgrade-Insecure-Requests" := "1"]> headers)
  else if bool_decide (Mode ctx = FetchModeCORS) || bool_decide (Mode ctx = FetchModeSameOrigin) then
    delete "Cache-Control"
      (delete "Upgrade-Insecure-Requests" (<["Accept" := AcceptAny]> headers))
  else if bool_decide (Mode ctx = FetchModeNoCORS) then
    let accept :=
      if bool_decide (Dest ctx = FetchDestImage) then AcceptImage
      else if bool_decide (Dest ctx = FetchDestStyle) then AcceptStyle
      else if bool_decide (Dest ctx = FetchDestScript) then AcceptAny
      else AcceptAny in
    delete "Cache-Control"
      (delete "Upgrade-Insecure-Requests" (<["Accept" := accept]> headers))
  else headers.

(** [HeaderCoherence.ApplyToHeaders].  The receiver's fields ([preset],
    [platform]) are not read by this method, so it is left out; the map that
    Go mutates in place is returned. *)
Definition ApplyToHeaders (headers : gmap string string)
    (ctx : RequestContext) : gmap string string :=
  let secFetch := GenerateSecFetchHeaders ctx in
  let h1 := <["Sec-Fetch-Site" := sfSite secFetch]> headers in
  let h2 := <["Sec-Fetch-Mode" := sfMode secFetch]> h1 in
  let h3 := <["Sec-Fetch-Dest" := sfDest secFetch]> h2 in
  let h4 := if bool_decide (sfUser secFetch ≠ "")
            then <["Sec-Fetch-User" := sfUser secFetch]> h3
            else delete "Sec-Fetch-User" h3 in
  let h5 := applyContextSpecific h4 ctx in
  if bool_decide (Referrer ctx ≠ "") then <["Referer" := Referrer ctx]> h5 else h5.

(** ** The rest of the file: sites, contexts and ready-made header sets *)

(** [strings.LastIndex(s, sep)] for a one-byte separator: the index of its
    last instance, or [-1]. *)
Fixpoint LastIndexByte (s : string) (c : ascii) : Z :=
  match s with
  | EmptyString => -1
  | String a s' =>
      let i := LastIndexByte s' c in
      if 0 <=? i then i + 1
      else if bool_decide (a = c) then 0 else -1
  end.

(** [s[:n]]. *)
Fixpoint slice_to (s : string) (n : nat) : string :=
  match n, s with
  | O, _ => EmptyString
  | S n', String a s' => String a (slice_to s' n')
  | S _, EmptyString => EmptyString
  end.

(** [strings.Split(s, sep)] for a one-byte separator: the pieces between the
    separators, always at least one (the empty string splits into [[""]]). *)
Fixpoint Split (s : string) (c : ascii) : list string :=
  match s with
  | EmptyString => [EmptyString]
  | String a s' =>
      if bool_decide (a = c) then EmptyString :: Split s' c
      else match Split s' c with
           | p :: ps => String a p :: ps
           | [] => [String a EmptyString]
           end
  end.

(** [strings.Join(parts, sep)]. *)
Fixpoint Join (parts : list string) (sep : string) : string :=
  match parts with
  | [] => EmptyString
  | [p] => p
  | p :: ps => p ++ sep ++ Join ps sep
  end.

(** [getRegistrableDomain]: the port is cut at the last colon, then the last
    two dot-separated parts are kept. *)
Definition getRegistrableDomain (host : string) : string :=
  let idx := LastIndexByte host ":" in
  let host := if negb (idx =? -1) then slice_to host (Z.to_nat idx) else host in
  let parts := Split host "." in
  if (2 <=? length parts)%nat
  then Join (drop (length parts - 2) parts) "."
  else host.

(** The two fields of [url.URL] that [calculateFetchSite] compares. *)
Record URL := { Scheme : string; Host : string }.

(** [url.Parse] belongs to the standard library; [calculateFetchSite] is
    modelled over any parser ([None]: a non-nil error). *)
Class URLParser := url_Parse : string → option URL.

Section WithParser.
Context {parser : URLParser}.

(** [calculateFetchSite]. *)
Definition calculateFetchSite (referrer targetURL : string) : FetchSite :=
  if bool_decide (referrer = "") then FetchSiteNone
  else
    match url_Parse referrer with
    | None => FetchSiteCrossSite
    | Some refURL =>
        match url_Parse targetURL with
        | None => FetchSiteCrossSite
        | Some targURL =>
            if bool_decide (Scheme refURL = Scheme targURL)
               && bool_decide (Host refURL = Host targURL)
            then FetchSiteSameOrigin
            else
              let refDomain := getRegistrableDomain (Host refURL) in
              let targDomain := getRegistrableDomain (Host targURL) in
              if bool_decide (refDomain = targDomain)
                 && bool_decide (Scheme refURL = Scheme targURL)
              then FetchSiteSameSite
              else FetchSiteCrossSite
        end
    end.

Definition XHRContext (referrer targetURL : string) : RequestContext :=
  {| Mode := FetchModeCORS; Dest := FetchDestXHR;
     Site := calculateFetchSite referrer targetURL; IsUserTriggered := false;
     Referrer := referrer; TargetURL := targetURL |}.

Definition ImageContext (referrer targetURL : string) : RequestContext :=
  {| Mode := FetchModeNoCORS; Dest := FetchDestImage;
     Site := calculateFetchSite referrer targetURL; IsUserTriggered := false;
     Referrer := referrer; TargetURL := targetURL |}.

Definition ScriptContext (referrer targetURL : string) : RequestContext :=
  {| Mode := FetchModeNoCORS; Dest := FetchDestScript;
     Site := calculateFetchSite referrer targetURL; IsUserTriggered := false;
     Referrer := referrer; TargetURL := targetURL |}.

Definition StyleContext (referrer targetURL : string) : RequestContext :=
  {| Mode := FetchModeNoCORS; Dest := FetchDestStyle;
     Site := calculateFetchSite referrer targetURL; IsUserTriggered := false;
     Referrer := referrer; TargetURL := targetURL |}.

End WithParser.

(** The two fields of [Preset] that this file reads. *)
Record Preset := {
  UserAgent : string;
  Headers : gmap string string;
}.

(** [GenerateNavigationHeaders]: a copy of the preset's headers with the
    navigation context applied. *)
Definition GenerateNavigationHeaders (preset : Preset) : gmap string string :=
  ApplyToHeaders (Headers preset) NavigationContext.

(** Copy a header of the preset if it has it
    ([if v, ok := h.preset.Headers[k]; ok { headers[k] = v }]). *)
Definition copyIfPresent (preset : Preset) (k : string)
    (headers : gmap string string) : gmap string string :=
  match Headers preset !! k with
  | Some v => <[k := v]> headers
  | None => headers
  end.

(** [GenerateXHRHeaders]. *)
Definition GenerateXHRHeaders {parser : URLParser} (preset : Preset)
    (referrer targetURL : string) : gmap string string :=
  let h1 := <["User-Agent" := UserAgent preset]> (∅ : gmap string string) in
  let h2 := <["Accept" := "*/*"]> h1 in
  let h3 := <["Accept-Encoding" := "gzip, deflate, br, zstd"]> h2 in
  let h4 := <["Accept-Language" := "en-US,en;q=0.9"]> h3 in
  let h5 := copyIfPresent preset "sec-ch-ua" h4 in
  let h6 := copyIfPresent preset "sec-ch-ua-mobile" h5 in
  let h7 := copyIfPresent preset "sec-ch-ua-platform" h6 in
  ApplyToHeaders h7 (XHRContext referrer targetURL).

(** The header names that [ApplyToHeaders] may write or delete. *)
Definition managed_headers : list string :=
  ["Sec-Fetch-Site"; "Sec-Fetch-Mode"; "Sec-Fetch-Dest"; "Sec-Fetch-User";
   "Upgrade-Insecure-Requests"; "Accept"; "Cache-Control"; "Referer"].

(** The modes for which the switch of [ApplyToHeaders] has an arm. *)
Definition mode_has_arm (m : FetchMode) : Prop :=
  m = FetchModeNavigate ∨ m = FetchModeCORS ∨ m = FetchModeSameOrigin
  ∨ m = FetchModeNoCORS.

(** The [Accept] header chosen for a destination in mode no-cors. *)
Definition acceptNoCORS (d : FetchDest) : string :=
  if bool_decide (d = FetchDestImage) then AcceptImage
  else if bool_decide (d = FetchDestStyle) then AcceptStyle
  else AcceptAny.

(** The host without its port, as [getRegistrableDomain] cuts it. *)
Definition cutPort (host : string) : string :=
  if negb (LastIndexByte host ":" =? -1)
  then slice_to host (Z.to_nat (LastIndexByte host ":")) else host.

(** The header names that [GenerateXHRHeaders] can produce. *)
Definition xhr_headers : list string :=
  ["User-Agent"; "Accept"; "Accept-Encoding"; "Accept-Language";
   "sec-ch-ua"; "sec-ch-ua-mobile"; "sec-ch-ua-platform";
   "Sec-Fetch-Site"; "Sec-Fetch-Mode"; "Sec-Fetch-Dest"; "Referer"].

(** The coherence headers of a subresource load (mode no-cors). *)
Definition subresource_headers (headers : gmap string string)
    (site : FetchSite) (dest : FetchDest) (accept : string) : Prop :=
  headers !! "Sec-Fetch-Site" = Some site
  ∧ headers !! "Sec-Fetch-Mode" = Some FetchModeNoCORS
  ∧ headers !! "Sec-Fetch-Dest" = Some dest
  ∧ headers !! "Accept" = Some accept
  ∧ headers !! "Sec-Fetch-User" = None
  ∧ headers !! "Upgrade-Insecure-Requests" = None
  ∧ headers !! "Cache-Control" = None.

(** A parser for URLs of the form [scheme://host/...], enough to run
    [calculateFetchSite] on concrete addresses. *)
Fixpoint untilSlash (s : string) : string :=
  match s with
  | EmptyString => EmptyString
  | String a s' => if bool_decide (a = "/"%char) then EmptyString
                   else String a (untilSlash s')
  end.

Fixpoint schemeHost (s : string) (scheme : string) : option URL :=
  match s with
  | String ":" (String "/" (String "/" rest)) =>
      Some {| Scheme := scheme; Host := untilSlash rest |}
  | String a s' => schemeHost s' (scheme ++ String a EmptyString)
  | EmptyString => None
  end.

Definition simpleParser : URLParser := λ s, schemeHost s "".

End Fingerprint.

(* ===================================================================== *)
(** * bytes: the two library functions the transport code relies on *)
(* ===================================================================== *)

Module Bytes.

Definition CR : byte := x0d.
Definition LF : byte := x0a.

(** The separator [[]byte("\r\n\r\n")]. *)
Definition CRLFCRLF : list byte := [CR; LF; CR; LF].

(** [len(b)] as a Go [int]. *)
Definition Len (b : list byte) : Z := Z.of_nat (length b).

(** [bytes.HasPrefix]. *)
Fixpoint HasPrefix (s p : list byte) {struct p} : bool :=
  match p, s with
  | [], _ => true
  | _ :: _, [] => false
  | y :: p', x :: s' => bool_decide (x = y) && HasPrefix s' p'
  end.

(** [bytes.Index(s, sep)]: the index of the first instance of [sep] in [s],
    or [-1] if [sep] is not present in [s]. *)
Fixpoint Index (s sep : list byte) : Z :=
  if HasPrefix s sep then 0
  else match s with
       | [] => -1
       | _ :: s' => let i := Index s' sep in if i <? 0 then -1 else i + 1
       end.

(** A response block: a slice that ends with its first [\r\n\r\n], as an
    HTTP response without body does. *)
Definition header_block (R : list byte) : Prop :=
  0 ≤ Index R CRLFCRLF ∧ Index R CRLFCRLF + 4 = Len R.

(** The bytes of a string literal. *)
Definition bytes (s : string) : list byte := String.list_byte_of_string s.

End Bytes.

(* ===================================================================== *)
(** * net/http: the response reader used to validate the proxy's answer *)
(* ===================================================================== *)

Module http.

(** The two fields of [http.Response] that the transport reads. *)
Record Response := {
  StatusCode : Z;   (* e.g. 200 *)
  Status : string;  (* e.g. "200 OK" *)
}.

Definition StatusOK : Z := 200.

(** [http.ReadResponse(bufio.NewReader(bytes.NewReader(data)), nil)] belongs
    to an imported package; the transport is modelled over any such reader.
    [inr msg] is a non-nil error. *)
Class Reader := ReadResponse : list byte → Response + string.

(** The bytes of a line up to, and without, its carriage return. *)
Fixpoint untilCR (l : list byte) : list byte :=
  match l with
  | [] => []
  | x :: l' => if bool_decide (x = Bytes.CR) then [] else x :: untilCR l'
  end.

Definition digit (b : byte) : option Z :=
  let n := Z.of_N (Byte.to_N b) in
  if (48 <=? n) && (n <=? 57) then Some (n - 48) else None.

(** A reader of HTTP/1.x status lines, [HTTP/1.x SSS reason], enough to run
    the transport on concrete byte streams. *)
Definition statusLineReader : Reader := λ data,
  match data with
  | "H"%byte :: "T"%byte :: "T"%byte :: "P"%byte :: "/"%byte :: "1"%byte
      :: "."%byte :: _ :: " "%byte :: d1 :: d2 :: d3 :: rest =>
      match digit d1, digit d2, digit d3 with
      | Some a, Some b, Some c =>
          inl {| StatusCode := 100 * a + 10 * b + c;
                 Status := String.string_of_list_byte
                   (d1 :: d2 :: d3 :: untilCR rest) |}
      | _, _, _ => inr "malformed HTTP status code"
      end
  | _ => inr "malformed HTTP response"
  end.

End http.

(* ===================================================================== *)
(** * transport: speculative TLS over HTTP CONNECT
      (transport/speculative_conn.go) *)
(* ===================================================================== *)

Module Transport.
Import Bytes.

(** ** The wrapped [net.Conn]

    The wrapped connection is the environment of [SpeculativeConn].  It is
    modelled as a reliable byte stream that arrives in segments: each [Read]
    hands out at most one segment, cut to the size of the buffer it is given,
    and what did not fit stays at the front of the stream.  A segment may be
    empty (a read of zero bytes) and a read may fail; once the script is
    exhausted reads fail with [io.EOF].  Every buffer handed to [Write] is
    logged, and each write may be accepted in full or rejected. *)

Inductive conn_error := EOF | NetError (msg : string).

Inductive ReadEvent :=
  | Data (d : list byte)
  | Fail (e : conn_error).

Inductive WriteOutcome :=
  | Accept                              (* n = len(b), err = nil *)
  | Reject (n : Z) (e : conn_error).    (* n bytes taken, err != nil *)

Record NetConn := {
  incoming : list ReadEvent;      (* what the next reads will deliver *)
  written : list (list byte);     (* the buffers passed to Write, oldest first *)
  outcomes : list WriteOutcome;   (* fate of the next writes; Accept when empty *)
}.

Definition set_incoming (c : NetConn) (i : list ReadEvent) : NetConn :=
  {| incoming := i; written := written c; outcomes := outcomes c |}.

(** [conn.Read(b)] with [len(b) = cap]: the bytes put into [b[:n]] and the
    error. *)
Definition conn_Read (c : NetConn) (cap : Z)
    : (list byte * option conn_error) * NetConn :=
  match incoming c with
  | [] => (([], Some EOF), c)
  | Fail e :: rest => (([], Some e), set_incoming c rest)
  | Data d :: rest =>
      if Len d <=? cap then ((d, None), set_incoming c rest)
      else ((take (Z.to_nat cap) d, None),
            set_incoming c (Data (drop (Z.to_nat cap) d) :: rest))
  end.

(** [conn.Write(b)]: [(n, err)]. *)
Definition conn_Write (c : NetConn) (b : list byte)
    : (Z * option conn_error) * NetConn :=
  let log := written c ++ [b] in
  match outcomes c with
  | [] => ((Len b, None), {| incoming := incoming c; written := log; outcomes := [] |})
  | Accept :: os =>
      ((Len b, None), {| incoming := incoming c; written := log; outcomes := os |})
  | Reject n e :: os =>
      ((n, Some e), {| incoming := incoming c; written := log; outcomes := os |})
  end.

(** The bytes the connection delivers before its first failing read. *)
Fixpoint stream_of (evs : list ReadEvent) : list byte :=
  match evs with
  | [] => []
  | Data d :: rest => d ++ stream_of rest
  | Fail _ :: _ => []
  end.
Definition stream (c : NetConn) : list byte := stream_of (incoming c).

(** All the bytes the connection will ever deliver, failing reads skipped. *)
Fixpoint all_data_of (evs : list ReadEvent) : list byte :=
  match evs with
  | [] => []
  | Data d :: rest => d ++ all_data_of rest
  | Fail _ :: rest => all_data_of rest
  end.
Definition all_data (c : NetConn) : list byte := all_data_of (incoming c).

(** A bound on the number of reads that can still return something. *)
Fixpoint events_size (evs : list ReadEvent) : nat :=
  match evs with
  | [] => O
  | Data d :: rest => S (length d + events_size rest)
  | Fail _ :: rest => S (events_size rest)
  end.
Definition conn_size (c : NetConn) : nat := events_size (incoming c).

(** ** Errors *)

(** The values stored in [SpeculativeTLSError.Err]. *)
Inductive cause :=
  | ConnErr (e : conn_error)   (* an error of the wrapped connection *)
  | Errorf (msg : string)      (* fmt.Errorf(...) *)
  | HTTPErr (msg : string).    (* an error of http.ReadResponse *)

Record SpeculativeTLSError := {
  Op : string;          (* "write", "read", "parse", "status" *)
  StatusCode : Z;       (* HTTP status code (for status errors) *)
  Err : option cause;   (* underlying error *)
}.

(** A Go [error] as returned by the methods of [SpeculativeConn]: either the
    wrapped connection's own error or a [*SpeculativeTLSError]. *)
Inductive error :=
  | Underlying (e : conn_error)
  | Speculative (e : SpeculativeTLSError).

Definition IsSpeculativeTLSError (err : option error) : bool :=
  match err with
  | Some (Speculative _) => true
  | _ => false
  end.

Definition wrap (e : option conn_error) : option error := Underlying <$> e.

(** ** SpeculativeConn *)

Record SpeculativeConn := {
  Conn : NetConn;
  connectRequest : list byte;
  firstWrite : bool;
  httpResponseDone : bool;
  readBuffer : list byte;     (* bytes.Buffer: its unread portion *)
  headerBuffer : list byte;   (* accumulates partial HTTP headers *)
}.

Definition NewSpeculativeConn (conn : NetConn) (connectRequest : list byte)
    : SpeculativeConn :=
  {| Conn := conn; connectRequest := connectRequest;
     firstWrite := false; httpResponseDone := false;
     readBuffer := []; headerBuffer := [] |}.

Definition set_Conn (c : SpeculativeConn) (conn : NetConn) : SpeculativeConn :=
  {| Conn := conn; connectRequest := connectRequest c;
     firstWrite := firstWrite c; httpResponseDone := httpResponseDone c;
     readBuffer := readBuffer c; headerBuffer := headerBuffer c |}.
Definition set_firstWrite (c : SpeculativeConn) (v : bool) : SpeculativeConn :=
  {| Conn := Conn c; connectRequest := connectRequest c;
     firstWrite := v; httpResponseDone := httpResponseDone c;
     readBuffer := readBuffer c; headerBuffer := headerBuffer c |}.
Definition set_httpResponseDone (c : SpeculativeConn) (v : bool) : SpeculativeConn :=
  {| Conn := Conn c; connectRequest := connectRequest c;
     firstWrite := firstWrite c; httpResponseDone := v;
     readBuffer := readBuffer c; headerBuffer := headerBuffer c |}.
Definition set_readBuffer (c : SpeculativeConn) (v : list byte) : SpeculativeConn :=
  {| Conn := Conn c; connectRequest := connectRequest c;
     firstWrite := firstWrite c; httpResponseDone := httpResponseDone c;
     readBuffer := v; headerBuffer := headerBuffer c |}.
Definition set_headerBuffer (c : SpeculativeConn) (v : list byte) : SpeculativeConn :=
  {| Conn := Conn c; connectRequest := connectRequest c;
     firstWrite := firstWrite c; httpResponseDone := httpResponseDone c;
     readBuffer := readBuffer c; headerBuffer := v |}.

(** [SpeculativeConn.Write]: [(n, err)] and the receiver afterwards. *)
Definition SpeculativeConn_Write (c : SpeculativeConn) (b : list byte)
    : (Z * option error) * SpeculativeConn :=
  if negb (firstWrite c) then
    let combined := connectRequest c ++ b in
    let '((_, err), conn') := conn_Write (Conn c) combined in
    match err with
    | Some e =>
        ((0, Some (Speculative {| Op := "write"; StatusCode := 0;
                                  Err := Some (ConnErr e) |})),
         set_Conn c conn')
    | None => ((Len b, None), set_firstWrite (set_Conn c conn') true)
    end
  else
    let '((n, err), conn') := conn_Write (Conn c) b in
    ((n, wrap err), set_Conn c conn').

(** Size of the temporary buffer of [readAndStripHTTPResponse]. *)
Definition tempBufSize : Z := 8192.
(** The header limit of [readAndStripHTTPResponse]. *)
Definition headerLimit : Z := 16384.

Section WithReader.
Context {reader : http.Reader}.

(** [readAndStripHTTPResponse].  The Go function calls itself when the
    terminator has not arrived yet; every such call first consumes a read
    event of the wrapped connection, so [fuel] larger than [conn_size]
    is never exhausted ([None] is reserved for running out of fuel). *)
Fixpoint readAndStrip (fuel : nat) (c : SpeculativeConn) (cap : Z)
    : option ((list byte * option error) * SpeculativeConn) :=
  match fuel with
  | O => None
  | S fuel' =>
      let '((tempBuf, err), conn') := conn_Read (Conn c) tempBufSize in
      let c := set_Conn c conn' in
      match err with
      | Some e =>
          Some (([], Some (Speculative {| Op := "read"; StatusCode := 0;
                                          Err := Some (ConnErr e) |})), c)
      | None =>
          let c := set_headerBuffer c (headerBuffer c ++ tempBuf) in
          let data := headerBuffer c in
          let headerEnd := Index data CRLFCRLF in
          if headerEnd =? -1 then
            if Len (headerBuffer c) >? headerLimit then
              Some (([], Some (Speculative
                       {| Op := "parse"; StatusCode := 0;
                          Err := Some (Errorf "HTTP response headers exceed 16KB limit") |})), c)
            else readAndStrip fuel' c cap
          else
            match http.ReadResponse (take (Z.to_nat (headerEnd + 4)) data) with
            | inr msg =>
                Some (([], Some (Speculative {| Op := "parse"; StatusCode := 0;
                                                Err := Some (HTTPErr msg) |})), c)
            | inl resp =>
                if negb (http.StatusCode resp =? http.StatusOK) then
                  Some (([], Some (Speculative
                           {| Op := "status"; StatusCode := http.StatusCode resp;
                              Err := Some (Errorf (http.Status resp)) |})), c)
                else
                  let c := set_headerBuffer (set_httpResponseDone c true) [] in
                  let tlsData := drop (Z.to_nat (headerEnd + 4)) data in
                  if Len tlsData >? 0 then
                    let copied := take (Z.to_nat cap) tlsData in
                    let c := if Len copied <? Len tlsData
                             then set_readBuffer c
                                    (readBuffer c ++ drop (length copied) tlsData)
                             else c in
                    Some ((copied, None), c)
                  else
                    let '((got, err), conn'') := conn_Read (Conn c) cap in
                    Some ((got, wrap err), set_Conn c conn'')
            end
      end
  end.

Definition readAndStripHTTPResponse (c : SpeculativeConn) (cap : Z)
    : option ((list byte * option error) * SpeculativeConn) :=
  readAndStrip (S (conn_size (Conn c))) c cap.

(** [SpeculativeConn.Read] with [len(b) = cap]: the bytes put into [b[:n]],
    the error, and the receiver afterwards. *)
Definition SpeculativeConn_Read (c : SpeculativeConn) (cap : Z)
    : option ((list byte * option error) * SpeculativeConn) :=
  if Len (readBuffer c) >? 0 then
    (* bytes.Buffer.Read on a non-empty buffer: copy, advance, nil error *)
    let n := Z.to_nat cap in
    Some ((take n (readBuffer c), None), set_readBuffer c (drop n (readBuffer c)))
  else if negb (httpResponseDone c) then
    readAndStripHTTPResponse c cap
  else
    let '((got, err), conn') := conn_Read (Conn c) cap in
    Some ((got, wrap err), set_Conn c conn').

(** Successive [Read]s with buffers of the given sizes: the results in order
    and the receiver after the last one. *)
Fixpoint Reads (c : SpeculativeConn) (caps : list Z)
    : option (list (list byte * option error) * SpeculativeConn) :=
  match caps with
  | [] => Some ([], c)
  | cap :: caps' =>
      '(r, c1) ← SpeculativeConn_Read c cap;
      '(rs, c2) ← Reads c1 caps';
      Some (r :: rs, c2)
  end.

End WithReader.

(** How many activations of [readAndStripHTTPResponse] are on the call stack
    when the innermost one stops calling itself.  The Go function has no
    loop: when the terminator has not arrived and the limit is not exceeded
    it ends with [return c.readAndStripHTTPResponse(b)], one more activation
    (with its own 8192-byte buffer) per read of the wrapped connection. *)
Fixpoint activations (fuel : nat) (c : SpeculativeConn) : nat :=
  match fuel with
  | O => O
  | S fuel' =>
      let '((tempBuf, err), conn') := conn_Read (Conn c) tempBufSize in
      match err with
      | Some _ => 1%nat
      | None =>
          let c := set_headerBuffer (set_Conn c conn') (headerBuffer c ++ tempBuf) in
          if (Index (headerBuffer c) CRLFCRLF =? -1)
             && negb (Len (headerBuffer c) >? headerLimit)
          then S (activations fuel' c)
          else 1%nat
      end
  end.

(** Successive [Write]s. *)
Fixpoint Writes (c : SpeculativeConn) (bs : list (list byte))
    : list (Z * option error) * SpeculativeConn :=
  match bs with
  | [] => ([], c)
  | b :: bs' =>
      let '(r, c1) := SpeculativeConn_Write c b in
      let '(rs, c2) := Writes c1 bs' in
      (r :: rs, c2)
  end.

(** Successive writes on the wrapped connection itself. *)
Fixpoint conn_Writes (c : NetConn) (bs : list (list byte))
    : list (Z * option conn_error) * NetConn :=
  match bs with
  | [] => ([], c)
  | b :: bs' =>
      let '(r, c1) := conn_Write c b in
      let '(rs, c2) := conn_Writes c1 bs' in
      (r :: rs, c2)
  end.

End Transport.

(* ===================================================================== *)
(** * Vocabulary of the properties of the speculative connection *)
(* ===================================================================== *)

Module TransportSpec.
Import Bytes Transport.

(** A speculative connection that has not seen any of the proxy's answer. *)
Definition awaiting_response (c : SpeculativeConn) : Prop :=
  httpResponseDone c = false ∧ readBuffer c = [] ∧ headerBuffer c = [].

(** The connection of the repository's tests: one segment per read, nothing
    written so far, every write accepted. *)
Definition mockConn (reads : list (list byte)) : NetConn :=
  {| incoming := Data <$> reads; written := []; outcomes := [] |}.

(** The bytes handed to the caller by the successful reads of a run. *)
Definition delivered (rs : list (list byte * option error)) : list byte :=
  concat ((λ r, match r.2 with None => r.1 | Some _ => [] end) <$> rs).

(** What follows the first CRLF CRLF of a byte sequence. *)
Definition after_terminator (A : list byte) : list byte :=
  drop (Z.to_nat (Index A CRLFCRLF + 4)) A.

(** ** Concrete streams used to exercise the properties *)

Definition connectReq : list byte :=
  bytes "CONNECT example.com:443 HTTP/1.1" ++ CRLFCRLF.

Definition ok200 : list byte := bytes "HTTP/1.1 200 OK" ++ CRLFCRLF.
Definition resp200 : http.Response :=
  {| http.StatusCode := 200; http.Status := "200 OK" |}.

Definition auth407 : list byte :=
  bytes "HTTP/1.1 407 Proxy Authentication Required" ++ [CR; LF]
  ++ bytes "Proxy-Authenticate: Basic" ++ CRLFCRLF.
Definition resp407 : http.Response :=
  {| http.StatusCode := 407; http.Status := "407 Proxy Authentication Required" |}.

(** A TLS record header, standing for the beginning of the ServerHello. *)
Definition serverHello : list byte := [x16; x03; x03; x00; x05].

(** A header line of 25 000 bytes. *)
Definition padLine : list byte :=
  bytes "X-Pad: " ++ replicate (Z.to_nat 25000) "a"%byte.

(** Well-formed responses whose header block is larger than 16 KiB. *)
Definition big200 : list byte :=
  bytes "HTTP/1.1 200 OK" ++ [CR; LF] ++ padLine ++ CRLFCRLF.
Definition big407 : list byte :=
  bytes "HTTP/1.1 407 Proxy Authentication Required" ++ [CR; LF]
  ++ padLine ++ CRLFCRLF.

(** The 200 response split across two reads, followed by TLS data. *)
Definition splitConn : NetConn :=
  mockConn [bytes "HTTP/1.1 200 O"; bytes "K" ++ CRLFCRLF ++ serverHello].

(** 17 000 header bytes in segments of 4096 and never a blank line. *)
Definition endlessConn : NetConn :=
  mockConn [replicate (Z.to_nat 4096) "a"%byte; replicate (Z.to_nat 4096) "b"%byte;
            replicate (Z.to_nat 4096) "c"%byte; replicate (Z.to_nat 4096) "d"%byte;
            replicate (Z.to_nat 616) "e"%byte].

(** A proxy that answers 407, and the same connection after the first read. *)
Definition deniedConn : SpeculativeConn :=
  NewSpeculativeConn (mockConn [auth407; serverHello]) connectReq.
Definition deniedConn_after : SpeculativeConn :=
  {| Conn := mockConn [serverHello]; connectRequest := connectReq;
     firstWrite := false; httpResponseDone := false;
     readBuffer := []; headerBuffer := auth407 |}.

(** A wrapped connection whose first two writes fail, the first one after
    taking 10 bytes. *)
Definition flakyConn : SpeculativeConn :=
  NewSpeculativeConn
    {| incoming := []; written := [];
       outcomes := [Reject 10 (NetError "broken pipe"); Reject 0 EOF; Accept] |}
    connectReq.

(** A result of the wrapped connection seen through the wrapper. *)
Definition lift (r : Z * option conn_error) : Z * option error := (r.1, wrap r.2).

(** A read that hands out nothing and fails with a [SpeculativeTLSError]. *)
Definition refused (r : list byte * option error) : Prop :=
  r.1 = [] ∧ IsSpeculativeTLSError r.2 = true.

(** The values of [SpeculativeTLSError.Op] that a read can produce. *)
Definition read_ops : list string := ["read"; "parse"; "status"]%string.

(** What [Write] reads or changes besides the CONNECT request: the flag and
    the write side of the wrapped connection. *)
Record WriteSide := {
  wsFirstWrite : bool;
  wsWritten : list (list byte);
  wsOutcomes : list WriteOutcome;
}.

Definition write_side (c : SpeculativeConn) : WriteSide :=
  {| wsFirstWrite := firstWrite c; wsWritten := written (Conn c);
     wsOutcomes := outcomes (Conn c) |}.

(** The [SpeculativeTLSError] of a failed first write. *)
Definition write_error (e : conn_error) : option error :=
  Some (Speculative {| Op := "write"; StatusCode := 0; Err := Some (ConnErr e) |}).

Section WithReader.
Context {reader : http.Reader}.

(** What the stripping read does once the whole response block [R] has
    arrived, by the answer of the response reader.  [Tall] is everything the
    wrapped connection delivers after [R]. *)
Definition strip_outcome (c : SpeculativeConn) (cap : Z) (R Tall : list byte)
    (res : (list byte * option error) * SpeculativeConn) : Prop :=
  let '((bs, e), c') := res in
  match http.ReadResponse R with
  | inr msg =>
      bs = [] ∧ e = Some (Speculative {| Op := "parse"; StatusCode := 0;
                                         Err := Some (HTTPErr msg) |})
      ∧ httpResponseDone c' = httpResponseDone c ∧ readBuffer c' = []
  | inl resp =>
      if http.StatusCode resp =? http.StatusOK then
        httpResponseDone c' = true ∧ headerBuffer c' = []
        ∧ Tall = bs ++ readBuffer c' ++ all_data (Conn c')
        ∧ IsSpeculativeTLSError e = false
        ∧ (e ≠ None → bs = [] ∧ headerBuffer c ++ stream (Conn c) = R)
        ∧ bs = take (Z.to_nat cap) bs
        ∧ (e = None → headerBuffer c ++ stream (Conn c)
                      = R ++ bs ++ readBuffer c' ++ stream (Conn c'))
      else
        bs = [] ∧ e = Some (Speculative
                    {| Op := "status"; StatusCode := http.StatusCode resp;
                       Err := Some (Errorf (http.Status resp)) |})
        ∧ httpResponseDone c' = httpResponseDone c ∧ readBuffer c' = []
  end.

(** The proxy's answer is complete in the header buffer and it is not a 200
    response: the response reader fails on it or reports another status. *)
Definition rejected (c : SpeculativeConn) : Prop :=
  httpResponseDone c = false ∧ readBuffer c = []
  ∧ 0 ≤ Index (headerBuffer c) CRLFCRLF
  ∧ ∀ resp,
      http.ReadResponse
        (take (Z.to_nat (Index (headerBuffer c) CRLFCRLF + 4)) (headerBuffer c))
      = inl resp →
      http.StatusCode resp ≠ http.StatusOK.

(** What a stripping read returns, by the kind of its error. *)
Definition strip_kind (cap : Z) (res : (list byte * option error) * SpeculativeConn)
    : Prop :=
  let '((bs, e), c') := res in
  (length bs ≤ Z.to_nat cap)%nat
  ∧ match e with
    | None => httpResponseDone c' = true
    | Some (Underlying _) => bs = [] ∧ httpResponseDone c' = true
    | Some (Speculative s) =>
        bs = [] ∧ httpResponseDone c' = false ∧ readBuffer c' = []
        ∧ Op s ∈ read_ops
        ∧ (Op s ≠ "status"%string → StatusCode s = 0)
        ∧ (Op s = "status"%string → StatusCode s ≠ http.StatusOK)
        ∧ (Op s = "status"%string ∨ (∃ m, Err s = Some (HTTPErr m)) → rejected c')
    end.

End WithReader.

End TransportSpec.

(* ===================================================================== *)
(** * transport: the per-address dial budget
      (the loop of [dialFirstSuccessful], as written out in
      [TestPerAddressTimeoutCalculation] and
      [TestPerAddressTimeoutPreventsStarvation]) *)
(* ===================================================================== *)

Module Dial.

(** [time.Duration] counts nanoseconds in an [int64]; the durations handled
    here are quotients and minima of the caller's budget and of ten seconds,
    so they stay in range and are modelled in [Z].  Instants of the logical
    clock are nanoseconds as well. *)
Definition Duration : Type := Z.
Definition Millisecond : Duration := 1000000.
Definition Second : Duration := 1000 * Millisecond.

(** A context: its deadline, if it has one ([ctx.Deadline()]). *)
Record Context := { deadline : option Z }.

(** [context.WithTimeout(parent, d)] created at instant [now]: the earlier of
    the parent's deadline and [now + d]. *)
Definition WithTimeout (now : Z) (parent : Context) (d : Duration) : Context :=
  {| deadline := Some (match deadline parent with
                       | Some p => Z.min p (now + d)
                       | None => now + d
                       end) |}.

(** The per-address timeout computed at instant [now] for a context and a
    number of remaining addresses:
<<
      perAddrTimeout := 10 * time.Second
      if deadline, ok := ctx.Deadline(); ok {
          budget := time.Until(deadline) / time.Duration(remaining)
          if budget < perAddrTimeout { perAddrTimeout = budget }
      }
>>
    Go's integer division truncates toward zero ([Z.quot]) and panics on a
    zero divisor ([None]). *)
Definition perAddrTimeout (now : Z) (ctx : Context) (remaining : Z)
    : option Duration :=
  let perAddrTimeout := 10 * Second in
  match deadline ctx with
  | Some d =>
      if remaining =? 0 then None
      else
        let budget := (d - now) ÷ remaining in
        Some (if budget <? perAddrTimeout then budget else perAddrTimeout)
  | None => Some perAddrTimeout
  end.

(** One attempt of the loop: when it started and the timeout it was given. *)
Record Attempt := { started : Z; timeout : Duration }.

(** The loop of [TestPerAddressTimeoutPreventsStarvation], for addresses
    [i, i+1, ...] ([left] of them), every dial taking its whole per-address
    timeout: the attempt ends when its own context is done, that is at the
    deadline of [WithTimeout ctx perAddrTimeout], or at once if that instant
    has passed.  (The [break] of the first [select] leaves the [select] only,
    so the loop runs through all the addresses.) *)
Fixpoint dialLoop (ctx : Context) (numAddrs : Z) (now : Z) (i : Z) (left : nat)
    : list Attempt :=
  match left with
  | O => []
  | S left' =>
      let remaining := numAddrs - i in
      match perAddrTimeout now ctx remaining with
      | None => []
      | Some per =>
          let addrCtx := WithTimeout now ctx per in
          let now' := match deadline addrCtx with
                      | Some d => Z.max now d
                      | None => now
                      end in
          {| started := now; timeout := per |}
            :: dialLoop ctx numAddrs now' (i + 1) left'
      end
  end.

(** All the attempts for [numAddrs] addresses under a total budget, the
    context being created at instant 0. *)
Definition simulateDial (totalTimeout : Duration) (numAddrs : nat) : list Attempt :=
  dialLoop {| deadline := Some totalTimeout |} (Z.of_nat numAddrs) 0 0 numAddrs.

End Dial.

(* ===================================================================== *)
(** * transport: the global key log writer (keylog.go) *)
(* ===================================================================== *)

Module KeyLog.
Local Open Scope string_scope.

(** An [io.Writer] held in [globalKeyLogWriter]: a file returned by
    [os.OpenFile] (the files are numbered in the order of the calls), or a
    writer supplied by the caller, which may or may not be an [io.Closer]. *)
Inductive Writer :=
  | File (serial : nat) (path : string)
  | Custom (id : nat) (closer : bool).

#[global] Instance Writer_eq_dec : EqDecision Writer.
Proof. solve_decision. Defined.

(** The type assertion [w.(io.Closer)]. *)
Definition isCloser (w : Writer) : bool :=
  match w with
  | File _ _ => true
  | Custom _ closer => closer
  end.

(** The environment of the package: the value of [SSLKEYLOGFILE], the error
    of the n-th call of [os.OpenFile] on a path, if it fails, and the error
    of [Close] on a writer, if it fails. *)
Record Env := {
  SSLKEYLOGFILE : string;
  openError : nat → string → option string;
  closeError : Writer → option string;
}.

(** The package variables, the number of [os.OpenFile] calls so far and the
    [Close] calls so far, oldest first. *)
Record State := {
  globalKeyLogWriter : option Writer;
  keyLogInitialized : bool;
  opens : nat;
  closed : list Writer;
}.

(** The package variables before [init] has run. *)
Definition initial : State :=
  {| globalKeyLogWriter := None; keyLogInitialized := false;
     opens := 0; closed := [] |}.

Definition set_writer (s : State) (w : option Writer) : State :=
  {| globalKeyLogWriter := w; keyLogInitialized := keyLogInitialized s;
     opens := opens s; closed := closed s |}.

Section WithEnv.
Variable env : Env.

(** [os.OpenFile(path, O_WRONLY|O_CREATE|O_APPEND, 0600)]. *)
Definition OpenFile (path : string) (s : State) : (Writer + string) * State :=
  let s' := {| globalKeyLogWriter := globalKeyLogWriter s;
               keyLogInitialized := keyLogInitialized s;
               opens := S (opens s); closed := closed s |} in
  match openError env (opens s) path with
  | Some e => (inr e, s')
  | None => (inl (File (opens s) path), s')
  end.

(** [if closer, ok := globalKeyLogWriter.(io.Closer); ok { closer.Close() }]:
    the error of [Close], if it was called and failed, and the state. *)
Definition closeExisting (s : State) : option string * State :=
  match globalKeyLogWriter s with
  | Some w =>
      if isCloser w then
        (closeError env w,
         {| globalKeyLogWriter := globalKeyLogWriter s;
            keyLogInitialized := keyLogInitialized s;
            opens := opens s; closed := closed s ++ [w] |})
      else (None, s)
  | None => (None, s)
  end.

(** [initKeyLogFromEnv]. *)
Definition initKeyLogFromEnv (s : State) : State :=
  if keyLogInitialized s then s
  else
    let s := {| globalKeyLogWriter := globalKeyLogWriter s;
                keyLogInitialized := true;
                opens := opens s; closed := closed s |} in
    let path := SSLKEYLOGFILE env in
    if bool_decide (path = "") then s
    else
      let '(f, s) := OpenFile path s in
      match f with
      | inr _ => s   (* silently ignored *)
      | inl f => set_writer s (Some f)
      end.

(** [GetKeyLogWriter]. *)
Definition GetKeyLogWriter (s : State) : option Writer := globalKeyLogWriter s.

(** [SetKeyLogFile]: the error and the state. *)
Definition SetKeyLogFile (path : string) (s : State) : option string * State :=
  let s := (closeExisting s).2 in
  let s := set_writer s None in
  if bool_decide (path = "") then (None, s)
  else
    let '(f, s) := OpenFile path s in
    match f with
    | inr e => (Some e, s)
    | inl f => (None, set_writer s (Some f))
    end.

(** [SetKeyLogWriter]; [None] is a nil writer. *)
Definition SetKeyLogWriter (w : option Writer) (s : State) : State :=
  let s := (closeExisting s).2 in
  set_writer s w.

(** [NewKeyLogFileWriter]. *)
Definition NewKeyLogFileWriter (path : string) (s : State)
    : (Writer + string) * State :=
  OpenFile path s.

(** [CloseKeyLog]: the error and the state. *)
Definition CloseKeyLog (s : State) : option string * State :=
  let '(err, s) := closeExisting s in
  (err, set_writer s None).

(** The calls a program can make, and runs of them. *)
Inductive Call :=
  | CallInit
  | CallGet
  | CallSetFile (path : string)
  | CallSetWriter (w : option Writer)
  | CallNewFileWriter (path : string)
  | CallClose.

Definition call (c : Call) (s : State) : State :=
  match c with
  | CallInit => initKeyLogFromEnv s
  | CallGet => s
  | CallSetFile path => (SetKeyLogFile path s).2
  | CallSetWriter w => SetKeyLogWriter w s
  | CallNewFileWriter path => (NewKeyLogFileWriter path s).2
  | CallClose => (CloseKeyLog s).2
  end.

Fixpoint calls (cs : list Call) (s : State) : State :=
  match cs with
  | [] => s
  | c :: cs' => calls cs' (call c s)
  end.

(** The states a run goes through, the first one included. *)
Fixpoint trace (cs : list Call) (s : State) : list State :=
  match cs with
  | [] => [s]
  | c :: cs' => s :: trace cs' (call c s)
  end.

End WithEnv.

(** The three calls that replace or drop the global writer. *)
Definition replaces (c : Call) : bool :=
  match c with
  | CallSetFile _ | CallSetWriter _ | CallClose => true
  | _ => false
  end.

(** An environment for examples: [SSLKEYLOGFILE] set, every path can be
    opened except ["/forbidden"], and [Close] never fails. *)
Definition exampleEnv : Env :=
  {| SSLKEYLOGFILE := "/tmp/keys.log";
     openError := λ _ path,
       if bool_decide (path = "/forbidden") then Some "permission denied" else None;
     closeError := λ _, None |}.

End KeyLog.

(* ===================================================================== *)
(** * net: IP addresses (Go's standard library) *)
(* ===================================================================== *)

Module Net.
Import Bytes.

(** A [net.IP] is a byte slice: 4 bytes for IPv4, 16 for IPv6 and for IPv4
    addresses in their IPv4-in-IPv6 form (what [net.ParseIP] returns). *)

Definition v4InV6Prefix : list byte :=
  [x00; x00; x00; x00; x00; x00; x00; x00; x00; x00; xff; xff].

(** [net.IPv4(a, b, c, d)]: the 16-byte form. *)
Definition IPv4 (a b c d : byte) : list byte := v4InV6Prefix ++ [a; b; c; d].

(** [ip.To4()]; [None] is the nil slice. *)
Definition To4 (ip : list byte) : option (list byte) :=
  if Len ip =? 4 then Some ip
  else if (Len ip =? 16) && bool_decide (take 12 ip = v4InV6Prefix)
       then Some (drop 12 ip)
       else None.

(** [ip.To16()]; [None] is the nil slice. *)
Definition To16 (ip : list byte) : option (list byte) :=
  if Len ip =? 4 then Some (v4InV6Prefix ++ ip)
  else if Len ip =? 16 then Some ip
  else None.

(** [ip.Equal(x)]: an IPv4 address and its IPv4-in-IPv6 form are equal. *)
Definition Equal (ip x : list byte) : bool :=
  if Len ip =? Len x then bool_decide (ip = x)
  else if (Len ip =? 4) && (Len x =? 16)
       then bool_decide (take 12 x = v4InV6Prefix) && bool_decide (ip = drop 12 x)
  else if (Len ip =? 16) && (Len x =? 4)
       then bool_decide (take 12 ip = v4InV6Prefix) && bool_decide (drop 12 ip = x)
  else false.

Record UDPAddr := { IP : list byte; Port : Z }.

(** A byte as a number and back ([byte(v)] keeps the low eight bits). *)
Definition Z_of_byte (b : byte) : Z := Z.of_N (Byte.to_N b).
Definition byte_of_Z (v : Z) : byte :=
  default x00 (Byte.of_N (Z.to_N (v mod 256))).

(** [binary.BigEndian.PutUint16(_, uint16(v))] and [binary.BigEndian.Uint16]. *)
Definition PutUint16 (v : Z) : list byte :=
  let u := v mod 65536 in [byte_of_Z (u / 256); byte_of_Z u].
Definition Uint16 (hi lo : byte) : Z := Z_of_byte hi * 256 + Z_of_byte lo.

End Net.

(* ===================================================================== *)
(** * proxy: the SOCKS5 UDP request header *)
(* ===================================================================== *)

Module Proxy.
Import Bytes Net.

(** The byte of a slice at an index that the caller has checked. *)
Definition at_ (data : list byte) (i : nat) : byte := default x00 (data !! i).

Definition ATYP_IPv4 : byte := x01.
Definition ATYP_Domain : byte := x03.
Definition ATYP_IPv6 : byte := x04.

(** Modelled from the spec: [buildSOCKS5UDPHeader] of package [proxy] is not
    among the sources (only its tests are).  The specification gives the
    layout [RSV(2) FRAG(1) ATYP(1) DSTADDR(var) DSTPORT(2)]; the tests fix
    the reserved and fragment bytes to zero, ATYP 1 with the four address
    bytes for an address that has an IPv4 form, ATYP 4 with sixteen bytes
    otherwise, and the port in network byte order. *)
Definition buildSOCKS5UDPHeader (addr : UDPAddr) : list byte :=
  match To4 (IP addr) with
  | Some ip4 => [x00; x00; x00; ATYP_IPv4] ++ ip4 ++ PutUint16 (Port addr)
  | None =>
      [x00; x00; x00; ATYP_IPv6]
      ++ take 16 (default [] (To16 (IP addr)) ++ replicate 16 x00)
      ++ PutUint16 (Port addr)
  end.

(** Modelled from the spec: [parseSOCKS5UDPHeader] of package [proxy] is not
    among the sources (only its tests are).  It returns the offset of the
    payload and the address, or an error: a packet shorter than the smallest
    header (10 bytes) or than the header its ATYP announces is refused, and
    so is FRAG != 0.  For a domain name the address carries the port only
    (the name is not resolved here). *)
Definition parseSOCKS5UDPHeader (data : list byte) : (Z * UDPAddr) + string :=
  if Len data <? 10 then inr "packet too small"
  else if negb (bool_decide (at_ data 2 = x00)) then inr "fragmented packets are not supported"
  else
    let atyp := at_ data 3 in
    if bool_decide (atyp = ATYP_IPv4) then
      inl (10, {| IP := take 4 (drop 4 data);
                  Port := Uint16 (at_ data 8) (at_ data 9) |})
    else if bool_decide (atyp = ATYP_IPv6) then
      if Len data <? 22 then inr "packet too small for IPv6"
      else inl (22, {| IP := take 16 (drop 4 data);
                       Port := Uint16 (at_ data 20) (at_ data 21) |})
    else if bool_decide (atyp = ATYP_Domain) then
      let n := Z_of_byte (at_ data 4) in
      if Len data <? 7 + n then inr "packet too small for domain"
      else inl (7 + n, {| IP := [];
                          Port := Uint16 (at_ data (Z.to_nat (5 + n)))
                                         (at_ data (Z.to_nat (6 + n))) |})
    else inr "unsupported address type".

(** The addresses of the network: an IP of 4 or 16 bytes and a 16-bit port. *)
Definition valid_addr (addr : UDPAddr) : Prop :=
  (Len (IP addr) = 4 ∨ Len (IP addr) = 16) ∧ 0 ≤ Port addr < 65536.

(** [net.ParseIP("1.2.3.4")] and port 443. *)
Definition addr_1_2_3_4_443 : UDPAddr :=
  {| IP := IPv4 x01 x02 x03 x04; Port := 443 |}.

(** [net.ParseIP("2001:db8::1")] and port 80. *)
Definition addr_2001_db8_1_80 : UDPAddr :=
  {| IP := [x20; x01; x0d; xb8; x00; x00; x00; x00;
             x00; x00; x00; x00; x00; x00; x00; x01]; Port := 80 |}.

End Proxy.

(* ===================================================================== *)
(** * httpcloak: the session registry of the local proxy (local_proxy.go) *)
(* ===================================================================== *)

Module LocalProxy.
Local Open Scope string_scope.

(** A [*Session] is the address of a session object; the registry stores
    the pointer, so one object can be registered under several IDs.  (A nil
    pointer is not an address: [RegisterSession] calls a method on it.) *)
Definition SessionPtr : Type := nat.

(** The error of [RegisterSession]:
    [fmt.Errorf("session with ID %q already exists", sessionID)]. *)
Inductive RegistryError := AlreadyExists (sessionID : string).

(** The part of [LocalProxy] that the registry methods use: the map, and the
    calls of [Session.SetSessionIdentifier] made so far, oldest first (the
    method belongs to the session type; the registry only calls it). *)
Record Registry := {
  sessionRegistry : gmap string SessionPtr;
  identifierCalls : list (SessionPtr * string);
}.

(** [sessionRegistry: make(map[string]*Session)] of [StartLocalProxy]. *)
Definition newRegistry : Registry :=
  {| sessionRegistry := ∅; identifierCalls := [] |}.

(** [RegisterSession]. *)
Definition RegisterSession (sessionID : string) (session : SessionPtr)
    (p : Registry) : option RegistryError * Registry :=
  match sessionRegistry p !! sessionID with
  | Some _ => (Some (AlreadyExists sessionID), p)
  | None =>
      (None,
       {| sessionRegistry := <[sessionID := session]> (sessionRegistry p);
          identifierCalls := identifierCalls p ++ [(session, sessionID)] |})
  end.

(** [UnregisterSession]: the session, if found. *)
Definition UnregisterSession (sessionID : string) (p : Registry)
    : option SessionPtr * Registry :=
  match sessionRegistry p !! sessionID with
  | None => (None, p)
  | Some session =>
      (Some session,
       {| sessionRegistry := delete sessionID (sessionRegistry p);
          identifierCalls := identifierCalls p ++ [(session, "")] |})
  end.

(** [GetSession]. *)
Definition GetSession (sessionID : string) (p : Registry) : option SessionPtr :=
  sessionRegistry p !! sessionID.

(** [ListSessions]; Go ranges over the map in an unspecified order. *)
Definition ListSessions (p : Registry) : list string :=
  (map_to_list (sessionRegistry p)).*1.

(** The argument of the last [SetSessionIdentifier] call on a session. *)
Fixpoint lastIdentifier (calls : list (SessionPtr * string)) (session : SessionPtr)
    : option string :=
  match calls with
  | [] => None
  | (s, id) :: rest =>
      match lastIdentifier rest session with
      | Some later => Some later
      | None => if bool_decide (s = session) then Some id else None
      end
  end.

(** Every registered session was last given the ID it is registered under. *)
Definition coherent (p : Registry) : Prop :=
  ∀ (sessionID : string) (session : SessionPtr),
    sessionRegistry p !! sessionID = Some session →
    lastIdentifier (identifierCalls p) session = Some sessionID.

End LocalProxy.

(* ===================================================================== *)
(** * session: the saved session state (session/state.go) *)
(* ===================================================================== *)

Module Session.

Definition SessionStateVersion : Z := 4.

(** Modelled from the spec: [protocol.SessionConfig] is not among the
    sources.  Of the session's configuration the specification of the saved
    state names the preset and the forced protocol (empty: none forced). *)
Record SessionConfig := {
  Preset : string;
  ForceProtocol : string;
}.

(** Modelled from the spec: [transport.TLSSessionState] is not among the
    sources.  A ticket record: the opaque ticket, the protocol it was issued
    for and its expiry. *)
Record TLSSessionState := {
  Ticket : list byte;
  Protocol : string;
  ExpiresAt : Z;
}.

(** [CookieState]: a serializable cookie ([time.Time] as an instant). *)
Record CookieState := {
  Domain : string;
  Path : string;
  Name : string;
  Value : string;
  Expires : option Z;
  Secure : bool;
  HttpOnly : bool;
}.

(** [SessionState]: the complete saveable session state.  These seven fields
    are all it has. *)
Record SessionState := {
  Version : Z;
  CreatedAt : Z;
  UpdatedAt : Z;
  Config : option SessionConfig;                (* *protocol.SessionConfig *)
  Cookies : list CookieState;
  TLSSessions : gmap string TLSSessionState;    (* keyed by origin *)
  ECHConfigs : gmap string string;              (* domain -> base64 *)
}.

(** Modelled from the spec: the arbiter hint of an origin (last-known-good
    protocol, cooldown marker for failed H3 attempts, last Alt-Svc seen); the
    arbiter is not among the sources. *)
Record ArbiterHint := {
  LastGood : string;
  H3Cooldown : bool;
  AltSvc : string;
}.

(** ** The blob

    A self-describing record: an object of named members.  A [SessionState]
    is written with [encoding/json]: one member per field, named by the
    field's tag, in the order of declaration; the tag [omitempty] drops
    [ech_configs] when the map is empty.  The members' values are kept as
    they are. *)
Inductive Member :=
  | MInt (v : Z)
  | MBool (b : bool)
  | MTime (t : Z)
  | MConfig (c : option SessionConfig)
  | MCookies (l : list CookieState)
  | MTLSSessions (m : gmap string TLSSessionState)
  | MECHConfigs (m : gmap string string)
  | MHints (m : gmap string ArbiterHint).

Definition Blob := list (string * Member).

Definition Marshal (st : SessionState) : Blob :=
  [ ("version", MInt (Version st));
    ("created_at", MTime (CreatedAt st));
    ("updated_at", MTime (UpdatedAt st));
    ("config", MConfig (Config st));
    ("cookies", MCookies (Cookies st));
    ("tls_sessions", MTLSSessions (TLSSessions st)) ]
  ++ (if bool_decide (ECHConfigs st = ∅) then []
      else [("ech_configs", MECHConfigs (ECHConfigs st))]).

Fixpoint member (key : string) (b : Blob) : option Member :=
  match b with
  | [] => None
  | (k, v) :: b' => if bool_decide (k = key) then Some v else member key b'
  end.

(** [json.Unmarshal] into a [SessionState]: a member that is absent leaves
    the field at its zero value, members with other names are ignored. *)
Definition Unmarshal (b : Blob) : SessionState :=
  {| Version := match member "version" b with Some (MInt v) => v | _ => 0 end;
     CreatedAt := match member "created_at" b with Some (MTime t) => t | _ => 0 end;
     UpdatedAt := match member "updated_at" b with Some (MTime t) => t | _ => 0 end;
     Config := match member "config" b with Some (MConfig c) => c | _ => None end;
     Cookies := match member "cookies" b with Some (MCookies l) => l | _ => [] end;
     TLSSessions := match member "tls_sessions" b with
                    | Some (MTLSSessions m) => m | _ => ∅ end;
     ECHConfigs := match member "ech_configs" b with
                   | Some (MECHConfigs m) => m | _ => ∅ end |}.

(** ** The session and its save and load *)

(** Modelled from the spec: the session runtime is not among the sources.
    What a session owns, as far as saving is concerned: its preset and forced
    protocol (empty: none forced), the cookie jar, the ticket cache, the ECH
    config cache and the arbiter-hint map. *)
Record Session := {
  sPreset : string;
  sForceProtocol : string;
  sCookies : list CookieState;
  sTickets : gmap string TLSSessionState;
  sECHConfigs : gmap string string;
  sHints : gmap string ArbiterHint;
}.

(** An origin is in H3 cooldown when its hint carries the marker. *)
Definition in_cooldown (h : gmap string ArbiterHint) (origin : string) : bool :=
  match h !! origin with
  | Some hint => H3Cooldown hint
  | None => false
  end.

(** The [SessionState] of a session at an instant. *)
Definition state_of (now : Z) (s : Session) : SessionState :=
  {| Version := SessionStateVersion;
     CreatedAt := now; UpdatedAt := now;
     Config := Some {| Preset := sPreset s;
                       ForceProtocol := sForceProtocol s |};
     Cookies := sCookies s;
     TLSSessions := sTickets s;
     ECHConfigs := sECHConfigs s |}.

(** Modelled from the spec: saving is not among the sources.  The blob is
    the versioned record that the spec describes: format version, preset
    name and forced-protocol flag (the [config] member), cookie array,
    ticket records keyed by origin, ECH config map and arbiter-hint map.
    The declaration of [SessionState] has no field for the hint map; the
    blob carries it as one more member.  A saved file also has a root member
    [force_http3], which the test of the C# binding reads next to
    [version]. *)
Definition Save (now : Z) (s : Session) : Blob :=
  Marshal (state_of now s)
  ++ [ ("force_http3", MBool (bool_decide (sForceProtocol s = "h3")));
       ("arbiter_hints", MHints (sHints s)) ].

(** The errors of loading. *)
Inductive LoadError :=
  | UnsupportedVersion (v : Z)
  | MissingConfig.

(** Modelled from the spec: loading is not among the sources.  The version
    is checked first and a version below the current one is rejected with a
    typed error; members that are not known are ignored; the session is
    rebuilt from the members, the arbiter-hint map included (a blob without
    one gives an empty map). *)
Definition Load (b : Blob) : Session + LoadError :=
  let st := Unmarshal b in
  if Version st <? SessionStateVersion then inr (UnsupportedVersion (Version st))
  else match Config st with
       | None => inr MissingConfig
       | Some cfg =>
           inl {| sPreset := Preset cfg; sForceProtocol := ForceProtocol cfg;
                  sCookies := Cookies st; sTickets := TLSSessions st;
                  sECHConfigs := ECHConfigs st;
                  sHints := match member "arbiter_hints" b with
                            | Some (MHints h) => h
                            | _ => ∅
                            end |}
       end.

(** A session that has learnt that H3 fails for [y.test]. *)
Definition cooled_session : Session :=
  {| sPreset := "chrome-143"; sForceProtocol := "";
     sCookies := []; sTickets := ∅; sECHConfigs := ∅;
     sHints := {[ "y.test" := {| LastGood := "h2"; H3Cooldown := true;
                                 AltSvc := "h3=:443" |} ]} |}.

End Session.

(* ===================================================================== *)
(** * Properties of header coherence *)
(* ===================================================================== *)

Section FingerprintFacts.
Import Fingerprint.

(** Lookups of a key that the context-specific switch never writes. *)
Lemma applyContextSpecific_other (h : gmap string string) ctx (k : string) :
  k ≠ "Accept" → k ≠ "Upgrade-Insecure-Requests" → k ≠ "Cache-Control" →
  applyContextSpecific h ctx !! k = h !! k.
Proof.
  intros Ha Hu Hc. unfold applyContextSpecific.
  repeat case_bool_decide; simpl;
    rewrite ?lookup_delete_ne, ?lookup_insert_ne by done; done.
Qed.

Lemma ApplyToHeaders_user (h : gmap string string) ctx :
  ApplyToHeaders h ctx !! "Sec-Fetch-User" =
    if IsUserTriggered ctx && bool_decide (Mode ctx = FetchModeNavigate)
    then Some "?1" else None.
Proof.
  unfold ApplyToHeaders.
  assert (Hk : ∀ m : gmap string string,
    (if bool_decide (Referrer ctx ≠ "") then <["Referer" := Referrer ctx]> m else m)
      !! "Sec-Fetch-User" = m !! "Sec-Fetch-User").
  { intros m. case_bool_decide; [by rewrite lookup_insert_ne|done]. }
  rewrite Hk, applyContextSpecific_other by done. simpl.
  destruct (IsUserTriggered ctx && bool_decide (Mode ctx = FetchModeNavigate)).
  - rewrite bool_decide_eq_true_2 by done. by rewrite lookup_insert_eq.
  - rewrite bool_decide_eq_false_2 by (intros H; by apply H).
    by rewrite lookup_delete_eq.
Qed.

(** C8.  After [ApplyToHeaders], the map carries [Sec-Fetch-User: ?1] exactly
    when the context's mode is navigate and the request is user-triggered; in
    every other context the map has no [Sec-Fetch-User] entry at all (an entry
    of the input map is removed).  The generated [SecFetchHeaders.User] field
    is ["?1"] under the same condition and empty otherwise. *)
Theorem C8_sec_fetch_user_iff_user_navigation :
  ∀ (headers : gmap string string) (ctx : RequestContext),
    (ApplyToHeaders headers ctx !! "Sec-Fetch-User" = Some "?1"
       ↔ Mode ctx = FetchModeNavigate ∧ IsUserTriggered ctx = true)
    ∧ (¬ (Mode ctx = FetchModeNavigate ∧ IsUserTriggered ctx = true)
       → ApplyToHeaders headers ctx !! "Sec-Fetch-User" = None)
    ∧ (sfUser (GenerateSecFetchHeaders ctx) = "?1"
       ↔ Mode ctx = FetchModeNavigate ∧ IsUserTriggered ctx = true)
    ∧ (¬ (Mode ctx = FetchModeNavigate ∧ IsUserTriggered ctx = true)
       → sfUser (GenerateSecFetchHeaders ctx) = "").
Proof.
  intros headers ctx. rewrite ApplyToHeaders_user.
  unfold GenerateSecFetchHeaders, sfUser.
  destruct (IsUserTriggered ctx); case_bool_decide; cbn [andb];
    intuition (done || congruence).
Qed.

(** The header [Upgrade-Insecure-Requests] after [ApplyToHeaders]. *)
Lemma ApplyToHeaders_upgrade (h : gmap string string) ctx :
  ApplyToHeaders h ctx !! "Upgrade-Insecure-Requests" =
    if bool_decide (Mode ctx = FetchModeNavigate) then Some "1"
    else if bool_decide (Mode ctx = FetchModeCORS)
            || bool_decide (Mode ctx = FetchModeSameOrigin)
            || bool_decide (Mode ctx = FetchModeNoCORS) then None
    else h !! "Upgrade-Insecure-Requests".
Proof.
  unfold ApplyToHeaders.
  assert (Hk : ∀ m : gmap string string,
    (if bool_decide (Referrer ctx ≠ "") then <["Referer" := Referrer ctx]> m else m)
      !! "Upgrade-Insecure-Requests" = m !! "Upgrade-Insecure-Requests").
  { intros m. case_bool_decide; [by rewrite lookup_insert_ne|done]. }
  rewrite Hk. unfold applyContextSpecific.
  destruct (bool_decide (Mode ctx = FetchModeNavigate)) eqn:Hn.
  { rewrite lookup_insert_ne by done. by rewrite lookup_insert_eq. }
  destruct (bool_decide (Mode ctx = FetchModeCORS)
            || bool_decide (Mode ctx = FetchModeSameOrigin)) eqn:Hc; simpl.
  { rewrite lookup_delete_ne by done. by rewrite lookup_delete_eq. }
  destruct (bool_decide (Mode ctx = FetchModeNoCORS)) eqn:Hno; simpl.
  { rewrite lookup_delete_ne by done. by rewrite lookup_delete_eq. }
  match goal with |- (if ?b then _ else _) !! _ = _ => destruct b end;
    rewrite ?lookup_delete_ne, ?lookup_insert_ne by done; done.
Qed.

(** For the modes that have an arm in the switch the header is present, with
    value ["1"], exactly for navigate. *)
Lemma upgrade_insecure_requests_switch_arms (h : gmap string string) ctx :
  Mode ctx ∈ [FetchModeNavigate; FetchModeCORS; FetchModeSameOrigin; FetchModeNoCORS] →
  (ApplyToHeaders h ctx !! "Upgrade-Insecure-Requests" = Some "1"
     ↔ Mode ctx = FetchModeNavigate)
  ∧ (Mode ctx ≠ FetchModeNavigate →
     ApplyToHeaders h ctx !! "Upgrade-Insecure-Requests" = None).
Proof.
  intros Hm. rewrite ApplyToHeaders_upgrade.
  repeat (apply elem_of_cons in Hm as [Hm|Hm]); [..|by apply elem_of_nil in Hm];
    rewrite Hm; simpl; repeat split; try done.
Qed.

(** C9.  The code at the failing input: with mode [websocket] and an input map
    that already holds [Upgrade-Insecure-Requests: 1], the header is still
    present after [ApplyToHeaders] (the switch has no arm for websocket),
    whereas the property asks for it to be absent. *)
Theorem C9_websocket_keeps_upgrade_insecure_requests :
  let ctx := {| Mode := FetchModeWebSocket; Dest := FetchDestXHR;
                Site := FetchSiteSameOrigin; IsUserTriggered := false;
                Referrer := ""; TargetURL := "wss://example.com/socket" |} in
  let headers : gmap string string := {["Upgrade-Insecure-Requests" := "1"]} in
  Mode ctx ≠ FetchModeNavigate
  ∧ ApplyToHeaders headers ctx !! "Upgrade-Insecure-Requests" = Some "1".
Proof.
  intros ctx headers. split; [done|].
  rewrite ApplyToHeaders_upgrade.
  rewrite !bool_decide_eq_false_2 by done. apply lookup_singleton_eq.
Qed.

End FingerprintFacts.
(* ===================================================================== *)
(** * Header coherence: what else [ApplyToHeaders] guarantees *)
(* ===================================================================== *)

Section HeaderCoherenceFacts.
Import Fingerprint.

Lemma referer_step (ctx : RequestContext) (m : gmap string string) (k : string) :
  k ≠ "Referer" →
  (if bool_decide (Referrer ctx ≠ "") then <["Referer" := Referrer ctx]> m else m)
    !! k = m !! k.
Proof. intros Hk. case_bool_decide; [by rewrite lookup_insert_ne|done]. Qed.

Lemma user_step (ctx : RequestContext) (m : gmap string string) (k : string) :
  k ≠ "Sec-Fetch-User" →
  (if bool_decide (sfUser (GenerateSecFetchHeaders ctx) ≠ "")
   then <["Sec-Fetch-User" := sfUser (GenerateSecFetchHeaders ctx)]> m
   else delete "Sec-Fetch-User" m) !! k = m !! k.
Proof.
  intros Hk. case_bool_decide; [by rewrite lookup_insert_ne|by rewrite lookup_delete_ne].
Qed.

Lemma ApplyToHeaders_site (h : gmap string string) ctx :
  ApplyToHeaders h ctx !! "Sec-Fetch-Site" = Some (Site ctx).
Proof.
  unfold ApplyToHeaders.
  rewrite referer_step, applyContextSpecific_other, user_step by done.
  rewrite !lookup_insert_ne by done. by rewrite lookup_insert_eq.
Qed.

Lemma ApplyToHeaders_mode (h : gmap string string) ctx :
  ApplyToHeaders h ctx !! "Sec-Fetch-Mode" = Some (Mode ctx).
Proof.
  unfold ApplyToHeaders.
  rewrite referer_step, applyContextSpecific_other, user_step by done.
  rewrite !lookup_insert_ne by done. by rewrite lookup_insert_eq.
Qed.

Lemma ApplyToHeaders_dest (h : gmap string string) ctx :
  ApplyToHeaders h ctx !! "Sec-Fetch-Dest" = Some (Dest ctx).
Proof.
  unfold ApplyToHeaders.
  rewrite referer_step, applyContextSpecific_other, user_step by done.
  by rewrite lookup_insert_eq.
Qed.

Lemma ApplyToHeaders_accept (h : gmap string string) ctx :
  ApplyToHeaders h ctx !! "Accept" =
    if bool_decide (Mode ctx = FetchModeNavigate) then Some AcceptNavigate
    else if bool_decide (Mode ctx = FetchModeCORS)
            || bool_decide (Mode ctx = FetchModeSameOrigin) then Some AcceptAny
    else if bool_decide (Mode ctx = FetchModeNoCORS) then Some (acceptNoCORS (Dest ctx))
    else h !! "Accept".
Proof.
  unfold ApplyToHeaders. rewrite referer_step by done.
  unfold applyContextSpecific, acceptNoCORS.
  destruct (bool_decide (Mode ctx = FetchModeNavigate)).
  { by rewrite lookup_insert_eq. }
  destruct (bool_decide (Mode ctx = FetchModeCORS)
            || bool_decide (Mode ctx = FetchModeSameOrigin)).
  { rewrite !lookup_delete_ne by done. by rewrite lookup_insert_eq. }
  destruct (bool_decide (Mode ctx = FetchModeNoCORS)).
  { rewrite !lookup_delete_ne by done. rewrite lookup_insert_eq.
    by repeat case_bool_decide. }
  rewrite user_step by done. by rewrite !lookup_insert_ne.
Qed.

Lemma ApplyToHeaders_cache_control (h : gmap string string) ctx :
  ApplyToHeaders h ctx !! "Cache-Control" =
    if bool_decide (Mode ctx = FetchModeNavigate) then h !! "Cache-Control"
    else if bool_decide (Mode ctx = FetchModeCORS)
            || bool_decide (Mode ctx = FetchModeSameOrigin)
            || bool_decide (Mode ctx = FetchModeNoCORS) then None
    else h !! "Cache-Control".
Proof.
  unfold ApplyToHeaders. rewrite referer_step by done.
  unfold applyContextSpecific.
  destruct (bool_decide (Mode ctx = FetchModeNavigate)).
  { rewrite !lookup_insert_ne, user_step by done. by rewrite !lookup_insert_ne. }
  destruct (bool_decide (Mode ctx = FetchModeCORS)
            || bool_decide (Mode ctx = FetchModeSameOrigin)); cbn [orb].
  { by rewrite lookup_delete_eq. }
  destruct (bool_decide (Mode ctx = FetchModeNoCORS)).
  { by rewrite lookup_delete_eq. }
  rewrite user_step by done. by rewrite !lookup_insert_ne.
Qed.

Lemma ApplyToHeaders_referer (h : gmap string string) ctx :
  ApplyToHeaders h ctx !! "Referer" =
    if bool_decide (Referrer ctx ≠ "") then Some (Referrer ctx) else h !! "Referer".
Proof.
  unfold ApplyToHeaders. case_bool_decide; [by rewrite lookup_insert_eq|].
  rewrite applyContextSpecific_other, user_step by done.
  by rewrite !lookup_insert_ne.
Qed.

Lemma ApplyToHeaders_unmanaged (h : gmap string string) ctx (k : string) :
  k ∉ managed_headers → ApplyToHeaders h ctx !! k = h !! k.
Proof.
  unfold managed_headers. rewrite !not_elem_of_cons.
  intros (? & ? & ? & ? & ? & ? & ? & ? & _).
  unfold ApplyToHeaders.
  rewrite referer_step, applyContextSpecific_other, user_step by done.
  by rewrite !lookup_insert_ne.
Qed.

(** X1.  For the four modes that have an arm in the switch, the six coherence
    headers of the result (Sec-Fetch-Site, -Mode, -Dest, -User,
    Upgrade-Insecure-Requests, Accept) are a function of the context alone:
    two input maps, whatever they hold, give the same six entries.  Site,
    mode and dest are the context's, for every mode. *)
Theorem X1_coherence_headers_depend_on_context_only :
  ∀ (h h' : gmap string string) (ctx : RequestContext),
    (ApplyToHeaders h ctx !! "Sec-Fetch-Site" = Some (Site ctx)
     ∧ ApplyToHeaders h ctx !! "Sec-Fetch-Mode" = Some (Mode ctx)
     ∧ ApplyToHeaders h ctx !! "Sec-Fetch-Dest" = Some (Dest ctx))
    ∧ (mode_has_arm (Mode ctx) →
       ∀ k, k ∈ ["Sec-Fetch-Site"; "Sec-Fetch-Mode"; "Sec-Fetch-Dest";
                 "Sec-Fetch-User"; "Upgrade-Insecure-Requests"; "Accept"] →
            ApplyToHeaders h ctx !! k = ApplyToHeaders h' ctx !! k).
Proof.
  intros h h' ctx. split.
  - by rewrite ApplyToHeaders_site, ApplyToHeaders_mode, ApplyToHeaders_dest.
  - intros Harm k Hk. rewrite !elem_of_cons in Hk.
    destruct Hk as [-> | [-> | [-> | [-> | [-> | [-> | Hk]]]]]]; [..|by apply elem_of_nil in Hk].
    + by rewrite !ApplyToHeaders_site.
    + by rewrite !ApplyToHeaders_mode.
    + by rewrite !ApplyToHeaders_dest.
    + by rewrite !ApplyToHeaders_user.
    + rewrite !ApplyToHeaders_upgrade.
      destruct Harm as [-> | [-> | [-> | ->]]]; done.
    + rewrite !ApplyToHeaders_accept.
      destruct Harm as [-> | [-> | [-> | ->]]]; done.
Qed.

(** X2.  [ApplyToHeaders] touches the eight header names it manages and no
    other: every other entry of the input map, present or absent, is the
    same in the result. *)
Theorem X2_unmanaged_headers_are_preserved :
  ∀ (h : gmap string string) (ctx : RequestContext) (k : string),
    k ∉ managed_headers → ApplyToHeaders h ctx !! k = h !! k.
Proof. intros. by apply ApplyToHeaders_unmanaged. Qed.

Lemma X2_witness_custom_header :
  ApplyToHeaders {[ "X-Request-Id" := "42" ]} NavigationContext !! "X-Request-Id"
  = ({[ "X-Request-Id" := "42" ]} : gmap string string) !! "X-Request-Id".
Proof.
  apply (X2_unmanaged_headers_are_preserved
           {[ "X-Request-Id" := "42" ]} NavigationContext "X-Request-Id").
  apply (bool_decide_unpack _). vm_compute. exact I.
Defined.

(** X3.  Applying the same context twice is the same as applying it once. *)
Theorem X3_apply_is_idempotent :
  ∀ (h : gmap string string) (ctx : RequestContext),
    ApplyToHeaders (ApplyToHeaders h ctx) ctx = ApplyToHeaders h ctx.
Proof.
  intros h ctx. apply map_eq. intros k.
  destruct (decide (k ∈ managed_headers)) as [Hk|Hk].
  - unfold managed_headers in Hk. rewrite !elem_of_cons in Hk.
    destruct Hk as [-> | [-> | [-> | [-> | [-> | [-> | [-> | [-> | Hk]]]]]]]];
      [..|by apply elem_of_nil in Hk].
    + by rewrite !ApplyToHeaders_site.
    + by rewrite !ApplyToHeaders_mode.
    + by rewrite !ApplyToHeaders_dest.
    + by rewrite !ApplyToHeaders_user.
    + rewrite (ApplyToHeaders_upgrade (ApplyToHeaders h ctx)).
      rewrite ApplyToHeaders_upgrade. by repeat case_match.
    + rewrite (ApplyToHeaders_accept (ApplyToHeaders h ctx)).
      rewrite ApplyToHeaders_accept. by repeat case_match.
    + rewrite (ApplyToHeaders_cache_control (ApplyToHeaders h ctx)).
      rewrite ApplyToHeaders_cache_control. by repeat case_match.
    + rewrite (ApplyToHeaders_referer (ApplyToHeaders h ctx)).
      rewrite ApplyToHeaders_referer. by repeat case_match.
  - by rewrite !ApplyToHeaders_unmanaged.
Qed.

(** X4.  [ApplyToHeaders] never adds a Cache-Control header: the result has
    one only if the input had it, with the same value.  It removes it for
    the modes cors, same-origin and no-cors, and leaves it in place on
    navigation. *)
Theorem X4_cache_control_is_never_added :
  ∀ (h : gmap string string) (ctx : RequestContext),
    (∀ v, ApplyToHeaders h ctx !! "Cache-Control" = Some v →
          h !! "Cache-Control" = Some v)
    ∧ (Mode ctx = FetchModeCORS ∨ Mode ctx = FetchModeSameOrigin
       ∨ Mode ctx = FetchModeNoCORS →
       ApplyToHeaders h ctx !! "Cache-Control" = None)
    ∧ (Mode ctx = FetchModeNavigate →
       ApplyToHeaders h ctx !! "Cache-Control" = h !! "Cache-Control").
Proof.
  intros h ctx. rewrite ApplyToHeaders_cache_control. split_and!.
  - intros v. by repeat case_match.
  - by intros [-> | [-> | ->]].
  - by intros ->.
Qed.

(** X5.  The Referer of the result is the context's referrer when that is
    not empty; with an empty referrer the entry of the input map, if any,
    stays as it is (it is not removed). *)
Theorem X5_referer_follows_context_or_stays :
  ∀ (h : gmap string string) (ctx : RequestContext),
    (Referrer ctx ≠ "" → ApplyToHeaders h ctx !! "Referer" = Some (Referrer ctx))
    ∧ (Referrer ctx = "" → ApplyToHeaders h ctx !! "Referer" = h !! "Referer").
Proof.
  intros h ctx. rewrite ApplyToHeaders_referer. split; intros H.
  - by rewrite bool_decide_eq_true_2.
  - rewrite bool_decide_eq_false_2; [done|]. by intros Hne.
Qed.

End HeaderCoherenceFacts.
(* ===================================================================== *)
(** * Sites: registrable domains, fetch sites and the XHR header set *)
(* ===================================================================== *)

Section SiteFacts.
Import Fingerprint.
Local Open Scope string_scope.

Lemma append_nil (b : string) : "" ++ b = b.
Proof. done. Qed.

Lemma append_cons (x : ascii) (a b : string) : String x a ++ b = String x (a ++ b).
Proof. done. Qed.

Lemma length_append (a b : string) :
  String.length (a ++ b) = (String.length a + String.length b)%nat.
Proof.
  induction a as [|x a IH]; rewrite ?append_nil, ?append_cons; cbn [String.length Nat.add];
    [done|by rewrite IH].
Qed.

Lemma LastIndexByte_ge s c : (-1 ≤ LastIndexByte s c)%Z.
Proof.
  induction s as [|a s IH]; cbn; [lia|].
  destruct (0 <=? LastIndexByte s c)%Z eqn:E; [apply Z.leb_le in E; lia|].
  case_bool_decide; lia.
Qed.

Lemma LastIndexByte_app a b c :
  LastIndexByte (a ++ b) c
  = if (0 <=? LastIndexByte b c)%Z
    then (Z.of_nat (String.length a) + LastIndexByte b c)%Z
    else LastIndexByte a c.
Proof.
  induction a as [|x a IH]; rewrite ?append_nil, ?append_cons; cbn [String.length LastIndexByte].
  - pose proof (LastIndexByte_ge b c).
    destruct (Z.leb_spec 0 (LastIndexByte b c)); lia.
  - rewrite IH. destruct (Z.leb_spec 0 (LastIndexByte b c)); [|done].
    destruct (Z.leb_spec 0 (Z.of_nat (String.length a) + LastIndexByte b c)); lia.
Qed.

Lemma slice_to_app a b n :
  slice_to (a ++ b) (String.length a + n) = a ++ slice_to b n.
Proof.
  induction a as [|x a IH]; rewrite ?append_nil, ?append_cons; cbn [String.length Nat.add slice_to];
    [by destruct n, b|by rewrite IH].
Qed.

Lemma Split_nonempty s c : Split s c ≠ [].
Proof.
  destruct s as [|a s]; cbn; [done|].
  case_bool_decide; [done|]. by destruct (Split s c).
Qed.

Lemma Split_app a b c :
  Split (a ++ String c b) c = (Split a c ++ Split b c)%list.
Proof.
  induction a as [|x a IH]; rewrite ?append_nil, ?append_cons; cbn [Split].
  - by rewrite bool_decide_eq_true_2.
  - rewrite IH. case_bool_decide; [done|].
    pose proof (Split_nonempty a c). by destruct (Split a c).
Qed.

Lemma getRegistrableDomain_cut host :
  getRegistrableDomain host
  = if (2 <=? length (Split (cutPort host) "."))%nat
    then Join (drop (length (Split (cutPort host) ".") - 2) (Split (cutPort host) ".")) "."
    else cutPort host.
Proof. done. Qed.

Lemma cutPort_subdomain sub h :
  LastIndexByte sub ":" = (-1)%Z →
  cutPort (sub ++ String "." h) = sub ++ String "." (cutPort h).
Proof.
  intros Hsub. unfold cutPort. rewrite LastIndexByte_app.
  cbn [LastIndexByte]. pose proof (LastIndexByte_ge h ":") as Hge.
  destruct (0 <=? LastIndexByte h ":")%Z eqn:E.
  - apply Z.leb_le in E. cbn [Z.leb]. rewrite (proj2 (Z.leb_le _ _)) by lia.
    rewrite (proj2 (Z.eqb_neq _ _)) by lia.
    rewrite (proj2 (Z.eqb_neq (LastIndexByte h ":") _)) by lia. cbn [negb].
    replace (Z.to_nat (Z.of_nat (String.length sub) + (LastIndexByte h ":" + 1)))
      with (String.length sub + S (Z.to_nat (LastIndexByte h ":")))%nat by lia.
    by rewrite slice_to_app.
  - apply Z.leb_gt in E. rewrite bool_decide_eq_false_2 by done.
    cbn [Z.leb Z.compare]. rewrite Hsub.
    by rewrite (proj2 (Z.eqb_eq (LastIndexByte h ":") (-1))) by lia.
Qed.

Lemma getRegistrableDomain_subdomain sub h :
  LastIndexByte sub ":" = (-1)%Z →
  (2 ≤ length (Split (cutPort h) "."))%nat →
  getRegistrableDomain (sub ++ "." ++ h) = getRegistrableDomain h.
Proof.
  intros Hsub Hparts. change ("." ++ h) with (String "." h).
  rewrite !getRegistrableDomain_cut, cutPort_subdomain, Split_app by done.
  rewrite length_app.
  pose proof (Split_nonempty sub ".") as Hne.
  rewrite (proj2 (Nat.leb_le _ _)) by lia.
  rewrite (proj2 (Nat.leb_le _ _)) by lia.
  rewrite drop_app_ge by lia. do 2 f_equal. lia.
Qed.

(** X6.  Labels in front of a host do not change its registrable domain:
    if [sub] has no colon and the host part of [h] has at least two
    dot-separated parts, [sub.h] and [h] have the same registrable domain. *)
Theorem X6_registrable_domain_ignores_subdomains :
  ∀ (sub h : string),
    LastIndexByte sub ":" = (-1)%Z →
    (2 ≤ length (Split (cutPort h) "."))%nat →
    getRegistrableDomain (sub ++ "." ++ h) = getRegistrableDomain h.
Proof. intros sub h. apply getRegistrableDomain_subdomain. Qed.

Lemma X6_witness_www :
  getRegistrableDomain ("www" ++ "." ++ "example.com:8443")
  = getRegistrableDomain "example.com:8443".
Proof.
  apply (X6_registrable_domain_ignores_subdomains "www" "example.com:8443").
  - reflexivity.
  - vm_compute. lia.
Defined.

Section WithParser.
Context {parser : URLParser}.

(** X7.  With a referrer, the fetch site is never "none", and it does not
    depend on which of the two addresses is the referrer: for non-empty
    addresses [calculateFetchSite] is symmetric.  An address that does not
    parse makes the pair cross-site. *)
Theorem X7_fetch_site_is_symmetric :
  ∀ (referrer targetURL : string),
    referrer ≠ "" →
    calculateFetchSite referrer targetURL ∈
      [FetchSiteSameOrigin; FetchSiteSameSite; FetchSiteCrossSite]
    ∧ (url_Parse referrer = None ∨ url_Parse targetURL = None →
       calculateFetchSite referrer targetURL = FetchSiteCrossSite)
    ∧ (targetURL ≠ "" →
       calculateFetchSite referrer targetURL = calculateFetchSite targetURL referrer).
Proof.
  intros r t Hr. unfold calculateFetchSite.
  rewrite (bool_decide_eq_false_2 (r = "")) by done. split_and!.
  - destruct (url_Parse r) as [ru|], (url_Parse t) as [tu|];
      repeat case_match; set_solver.
  - intros [->| ->]; [done|]. by destruct (url_Parse r).
  - intros Ht. rewrite (bool_decide_eq_false_2 (t = "")) by done.
    destruct (url_Parse r) as [ru|], (url_Parse t) as [tu|]; try done.
    destruct (decide (Scheme ru = Scheme tu)) as [Hs|Hs],
             (decide (Host ru = Host tu)) as [Hh|Hh];
      rewrite ?Hs, ?Hh; repeat case_bool_decide; try done; congruence.
Qed.

(** X8.  A page and an address on a subdomain of the page's host, under the
    same scheme, are same-site (the host having at least two dot-separated
    parts and the subdomain label no colon). *)
Theorem X8_subdomain_is_same_site :
  ∀ (referrer targetURL scheme sub host : string),
    referrer ≠ "" →
    url_Parse referrer = Some {| Scheme := scheme; Host := host |} →
    url_Parse targetURL = Some {| Scheme := scheme; Host := sub ++ "." ++ host |} →
    LastIndexByte sub ":" = (-1)%Z →
    (2 ≤ length (Split (cutPort host) "."))%nat →
    calculateFetchSite referrer targetURL = FetchSiteSameSite.
Proof.
  intros r t scheme sub host Hr Hpr Hpt Hsub Hparts. unfold calculateFetchSite.
  rewrite (bool_decide_eq_false_2 (r = "")) by done. rewrite Hpr, Hpt.
  cbn [Scheme Host].
  rewrite (getRegistrableDomain_subdomain sub host Hsub Hparts).
  rewrite !(bool_decide_eq_true_2 (scheme = scheme)) by done.
  rewrite (bool_decide_eq_true_2 (getRegistrableDomain host = _)) by done.
  rewrite (bool_decide_eq_false_2 (host = _)); [done|].
  intros Heq. apply (f_equal String.length) in Heq.
  rewrite length_append in Heq.
  change ("." ++ host) with (String "." host) in Heq. cbn [String.length] in Heq. lia.
Qed.

End WithParser.

Lemma X7_witness_pages :
  calculateFetchSite (parser := simpleParser)
    "https://example.com/a" "https://cdn.example.com/b"
    ∈ [FetchSiteSameOrigin; FetchSiteSameSite; FetchSiteCrossSite]
  ∧ (url_Parse (URLParser := simpleParser) "https://example.com/a" = None
     ∨ url_Parse (URLParser := simpleParser) "https://cdn.example.com/b" = None →
     calculateFetchSite (parser := simpleParser)
       "https://example.com/a" "https://cdn.example.com/b" = FetchSiteCrossSite)
  ∧ ("https://cdn.example.com/b" ≠ "" →
     calculateFetchSite (parser := simpleParser)
       "https://example.com/a" "https://cdn.example.com/b"
     = calculateFetchSite (parser := simpleParser)
         "https://cdn.example.com/b" "https://example.com/a").
Proof.
  apply (X7_fetch_site_is_symmetric (parser := simpleParser)
           "https://example.com/a" "https://cdn.example.com/b").
  discriminate.
Defined.

Lemma X8_witness_cdn :
  calculateFetchSite (parser := simpleParser)
    "https://example.com/a" "https://cdn.example.com/b" = FetchSiteSameSite.
Proof.
  apply (X8_subdomain_is_same_site (parser := simpleParser)
           "https://example.com/a" "https://cdn.example.com/b"
           "https" "cdn" "example.com").
  - discriminate.
  - reflexivity.
  - reflexivity.
  - reflexivity.
  - vm_compute. lia.
Defined.

End SiteFacts.
(* ===================================================================== *)
(** * Ready-made header sets *)
(* ===================================================================== *)

Section GeneratedHeaders.
Import Fingerprint.
Local Open Scope string_scope.

Lemma copyIfPresent_other (preset : Preset) (k k' : string) (h : gmap string string) :
  k' ≠ k → copyIfPresent preset k h !! k' = h !! k'.
Proof.
  intros Hk. unfold copyIfPresent.
  destruct (Headers preset !! k); [by rewrite lookup_insert_ne|done].
Qed.

Lemma copyIfPresent_same (preset : Preset) (k : string) (h : gmap string string) :
  h !! k = None → copyIfPresent preset k h !! k = Headers preset !! k.
Proof.
  intros Hk. unfold copyIfPresent.
  destruct (Headers preset !! k) eqn:E; [by rewrite lookup_insert_eq|done].
Qed.

Context {parser : URLParser}.

(** X9.  The headers of an XHR request.  Only eleven names can occur, so no
    other header of the preset reaches an XHR request, and there is never a
    Sec-Fetch-User, Upgrade-Insecure-Requests or Cache-Control header.  The
    user agent is the preset's, Accept is any type, the mode is cors, the
    destination is empty, the three low-entropy client hints are the preset's
    (absent if the preset has none), and Referer is the referrer (absent if
    it is empty). *)
Theorem X9_xhr_headers_are_a_closed_set :
  ∀ (preset : Preset) (referrer targetURL : string),
    let headers := GenerateXHRHeaders preset referrer targetURL in
    (∀ k, k ∉ xhr_headers → headers !! k = None)
    ∧ headers !! "User-Agent" = Some (UserAgent preset)
    ∧ headers !! "Accept" = Some "*/*"
    ∧ headers !! "Sec-Fetch-Mode" = Some FetchModeCORS
    ∧ headers !! "Sec-Fetch-Dest" = Some FetchDestXHR
    ∧ headers !! "Sec-Fetch-Site" = Some (calculateFetchSite referrer targetURL)
    ∧ (∀ k, k ∈ ["sec-ch-ua"; "sec-ch-ua-mobile"; "sec-ch-ua-platform"] →
            headers !! k = Headers preset !! k)
    ∧ headers !! "Referer" = (if bool_decide (referrer = "") then None else Some referrer).
Proof.
  intros preset r t headers. subst headers. unfold GenerateXHRHeaders.
  split_and!.
  - intros k Hk. destruct (decide (k ∈ managed_headers)) as [Hm|Hm].
    + unfold managed_headers in Hm. unfold xhr_headers in Hk.
      rewrite !elem_of_cons in Hm. rewrite !not_elem_of_cons in Hk.
      destruct Hm as [-> | [-> | [-> | [-> | [-> | [-> | [-> | [-> | Hm]]]]]]]];
        [..|by apply elem_of_nil in Hm]; try (by destruct Hk as (? & ? & ? & ? & ? & ? & ? & ? & ? & ? & ? & _)).
      * by rewrite ApplyToHeaders_user.
      * by rewrite ApplyToHeaders_upgrade.
      * by rewrite ApplyToHeaders_cache_control.
    + rewrite ApplyToHeaders_unmanaged by done.
      unfold xhr_headers in Hk. rewrite !not_elem_of_cons in Hk.
      destruct Hk as (? & ? & ? & ? & ? & ? & ? & _).
      rewrite !copyIfPresent_other by done.
      by rewrite !lookup_insert_ne.
  - rewrite ApplyToHeaders_unmanaged
      by (apply (bool_decide_unpack _); vm_compute; exact I).
    rewrite !copyIfPresent_other by done.
    rewrite !lookup_insert_ne by done. by rewrite lookup_insert_eq.
  - by rewrite ApplyToHeaders_accept.
  - by rewrite ApplyToHeaders_mode.
  - by rewrite ApplyToHeaders_dest.
  - by rewrite ApplyToHeaders_site.
  - intros k Hk. rewrite !elem_of_cons in Hk.
    destruct Hk as [-> | [-> | [-> | Hk]]]; [..|by apply elem_of_nil in Hk];
      (rewrite ApplyToHeaders_unmanaged
         by (apply (bool_decide_unpack _); vm_compute; exact I));
      rewrite ?copyIfPresent_other by done;
      rewrite copyIfPresent_same; [done| |done| |done| ];
      rewrite ?copyIfPresent_other by done; by rewrite !lookup_insert_ne.
  - rewrite ApplyToHeaders_referer. cbn [Referrer XHRContext].
    repeat case_bool_decide; try done.
    rewrite !copyIfPresent_other by done. by rewrite !lookup_insert_ne.
Qed.

(** X10.  The headers of a page navigation are the preset's headers with six
    of them set: site none, mode navigate, destination document, user ?1,
    Upgrade-Insecure-Requests 1 and the navigation Accept.  Every other
    header of the preset is passed on as it is, a Referer or Cache-Control
    header included. *)
Theorem X10_navigation_headers_extend_the_preset :
  ∀ (preset : Preset),
    let headers := GenerateNavigationHeaders preset in
    headers !! "Sec-Fetch-Site" = Some FetchSiteNone
    ∧ headers !! "Sec-Fetch-Mode" = Some FetchModeNavigate
    ∧ headers !! "Sec-Fetch-Dest" = Some FetchDestDocument
    ∧ headers !! "Sec-Fetch-User" = Some "?1"
    ∧ headers !! "Upgrade-Insecure-Requests" = Some "1"
    ∧ headers !! "Accept" = Some AcceptNavigate
    ∧ (∀ k, k ∉ ["Sec-Fetch-Site"; "Sec-Fetch-Mode"; "Sec-Fetch-Dest";
                 "Sec-Fetch-User"; "Upgrade-Insecure-Requests"; "Accept"] →
            headers !! k = Headers preset !! k).
Proof.
  intros preset headers. subst headers. unfold GenerateNavigationHeaders.
  split_and!.
  - by rewrite ApplyToHeaders_site.
  - by rewrite ApplyToHeaders_mode.
  - by rewrite ApplyToHeaders_dest.
  - by rewrite ApplyToHeaders_user.
  - by rewrite ApplyToHeaders_upgrade.
  - by rewrite ApplyToHeaders_accept.
  - intros k Hk. rewrite !not_elem_of_cons in Hk.
    destruct Hk as (? & ? & ? & ? & ? & ? & _).
    destruct (decide (k = "Cache-Control")) as [->|Hc].
    { by rewrite ApplyToHeaders_cache_control. }
    destruct (decide (k = "Referer")) as [->|Hr].
    { by rewrite ApplyToHeaders_referer. }
    apply ApplyToHeaders_unmanaged. unfold managed_headers.
    rewrite !not_elem_of_cons. split_and!; try done. apply not_elem_of_nil.
Qed.

(** X22.  Image, script and stylesheet loads.  Whatever the map held before,
    applying one of the three subresource contexts leaves it with the fetch
    site computed from the referrer and the target, mode no-cors, the
    context's destination and the Accept value of that destination (any type
    for scripts), and without Sec-Fetch-User, Upgrade-Insecure-Requests and
    Cache-Control. *)
Theorem X22_subresource_contexts :
  ∀ (h : gmap string string) (referrer targetURL : string),
    subresource_headers (ApplyToHeaders h (ImageContext referrer targetURL))
      (calculateFetchSite referrer targetURL) FetchDestImage AcceptImage
    ∧ subresource_headers (ApplyToHeaders h (ScriptContext referrer targetURL))
        (calculateFetchSite referrer targetURL) FetchDestScript AcceptAny
    ∧ subresource_headers (ApplyToHeaders h (StyleContext referrer targetURL))
        (calculateFetchSite referrer targetURL) FetchDestStyle AcceptStyle.
Proof.
  intros h r t. unfold subresource_headers.
  rewrite !ApplyToHeaders_site, !ApplyToHeaders_mode, !ApplyToHeaders_dest,
    !ApplyToHeaders_accept, !ApplyToHeaders_user, !ApplyToHeaders_upgrade,
    !ApplyToHeaders_cache_control.
  by split_and!.
Qed.

End GeneratedHeaders.
(* ===================================================================== *)
(** * Properties of [bytes.Index] *)
(* ===================================================================== *)

Section BytesFacts.
Import Bytes.

Lemma Len_app (a b : list byte) : Len (a ++ b) = Len a + Len b.
Proof. unfold Len. rewrite length_app. lia. Qed.

Lemma Len_nonneg (a : list byte) : 0 ≤ Len a.
Proof. unfold Len. lia. Qed.

Lemma Len_cons (x : byte) (a : list byte) : Len (x :: a) = 1 + Len a.
Proof. unfold Len. cbn [length]. lia. Qed.

Lemma Len_nil : Len [] = 0.
Proof. done. Qed.

Lemma HasPrefix_length s p : HasPrefix s p = true → Len p ≤ Len s.
Proof.
  revert s. induction p as [|y p IH]; intros s.
  - intros _. rewrite Len_nil. apply Len_nonneg.
  - destruct s as [|x s]; cbn [HasPrefix]; [done|].
    intros [_ H]%andb_true_iff. apply IH in H. rewrite !Len_cons. lia.
Qed.

Lemma HasPrefix_app s t p :
  Len p ≤ Len s → HasPrefix (s ++ t) p = HasPrefix s p.
Proof.
  revert s. induction p as [|y p IH]; intros s; [done|].
  destruct s as [|x s]; rewrite ?Len_cons, ?Len_nil.
  - pose proof (Len_nonneg p). lia.
  - intros H. cbn [HasPrefix app]. f_equal. apply IH. lia.
Qed.

Lemma HasPrefix_app_true s t p :
  HasPrefix s p = true → HasPrefix (s ++ t) p = true.
Proof.
  intros H. rewrite HasPrefix_app; [done|]. by apply HasPrefix_length.
Qed.

Lemma Index_ge s sep : -1 ≤ Index s sep.
Proof.
  induction s as [|x s IH]; cbn [Index].
  - destruct (HasPrefix [] sep); lia.
  - destruct (HasPrefix (x :: s) sep); [lia|].
    cbv zeta. destruct (Index s sep <? 0) eqn:E; lia.
Qed.

(** A found separator lies entirely inside the slice. *)
Lemma Index_bound s sep : 0 ≤ Index s sep → Index s sep + Len sep ≤ Len s.
Proof.
  induction s as [|x s IH]; cbn [Index].
  - destruct (HasPrefix [] sep) eqn:E; [|lia].
    intros _. apply HasPrefix_length in E. lia.
  - destruct (HasPrefix (x :: s) sep) eqn:E.
    + intros _. apply HasPrefix_length in E. lia.
    + cbv zeta. destruct (Index s sep <? 0) eqn:E2; [lia|].
      apply Z.ltb_ge in E2. intros _. specialize (IH E2).
      rewrite Len_cons. lia.
Qed.

(** The first instance found in a slice is still the first one after more
    bytes are appended. *)
Lemma Index_app s t sep : 0 ≤ Index s sep → Index (s ++ t) sep = Index s sep.
Proof.
  induction s as [|x s IH].
  - cbn [Index]. destruct (HasPrefix [] sep) eqn:E; [|lia].
    intros _. destruct sep; [|done]. by destruct t.
  - cbn [Index app]. destruct (HasPrefix (x :: s) sep) eqn:E.
    + intros _. change (x :: s ++ t) with ((x :: s) ++ t).
      by rewrite HasPrefix_app_true.
    + cbv zeta. destruct (Index s sep <? 0) eqn:E2; [lia|].
      apply Z.ltb_ge in E2. intros _.
      pose proof (Index_bound s sep E2) as Hb.
      change (x :: s ++ t) with ((x :: s) ++ t).
      rewrite HasPrefix_app, E.
      * rewrite (IH E2). apply Z.ltb_ge in E2. by rewrite E2.
      * rewrite Len_cons. lia.
Qed.

(** Conversely, a slice without the separator has no prefix with it. *)
Lemma Index_app_none s t sep : Index (s ++ t) sep = -1 → Index s sep = -1.
Proof.
  intros H. pose proof (Index_ge s sep).
  destruct (decide (0 ≤ Index s sep)) as [Hs|Hs]; [|lia].
  rewrite Index_app in H by done. lia.
Qed.

End BytesFacts.

(* ===================================================================== *)
(** * Properties of the wrapped connection and of the stripping read *)
(* ===================================================================== *)

Section ConnFacts.
Import Bytes Transport.

Lemma prefix_app_short {A} (r a b : list A) :
  r `prefix_of` a ++ b → (length r ≤ length a)%nat → r `prefix_of` a.
Proof.
  intros [x Hx] Hlen. exists (drop (length r) a).
  assert (Hr : r = take (length r) a).
  { rewrite <- (take_app_le a b) by done. by rewrite Hx, take_app_length. }
  rewrite Hr at 1. by rewrite take_drop.
Qed.

Lemma conn_Read_ok c cap bs c' :
  conn_Read c cap = ((bs, None), c') →
  all_data c = bs ++ all_data c' ∧ stream c = bs ++ stream c'
  ∧ written c' = written c ∧ outcomes c' = outcomes c
  ∧ (0 < cap → (conn_size c' < conn_size c)%nat)
  ∧ bs = take (Z.to_nat cap) bs.
Proof.
  unfold conn_Read, all_data, stream, conn_size.
  destruct (incoming c) as [|[d|e] rest] eqn:Hin; [done| |done].
  destruct (Len d <=? cap) eqn:Hle; intros [= <- <-]; cbn.
  - apply Z.leb_le in Hle. unfold Len in Hle.
    split_and!; try done; [lia|].
    rewrite take_ge; [done|lia].
  - apply Z.leb_gt in Hle. unfold Len in Hle.
    split_and!; try done.
    + by rewrite app_assoc, take_drop.
    + by rewrite app_assoc, take_drop.
    + intros Hcap. rewrite length_drop. lia.
    + rewrite take_take. f_equal. lia.
Qed.

Lemma conn_Read_err c cap bs e c' :
  conn_Read c cap = ((bs, Some e), c') →
  bs = [] ∧ stream c = [] ∧ all_data c = all_data c'
  ∧ written c' = written c ∧ outcomes c' = outcomes c.
Proof.
  unfold conn_Read, all_data, stream.
  destruct (incoming c) as [|[d|e'] rest] eqn:Hin.
  - intros [= <- <- <-]. by rewrite Hin.
  - destruct (Len d <=? cap); intros [=].
  - intros [= <- <- <-]. done.
Qed.

End ConnFacts.

Section StripFacts.
Import Bytes Transport TransportSpec.
Context {reader : http.Reader}.

Lemma header_block_prefix R hb :
  header_block R → R `prefix_of` hb → Index hb CRLFCRLF = Len R - 4.
Proof.
  intros [H0 H4] [x ->]. rewrite Index_app by done. lia.
Qed.

(** The stripping read on a connection that delivers the response block [R]
    without a failing read, [R] being at most one byte over the limit. *)
Lemma readAndStrip_response fuel c cap R Tall :
  (conn_size (Conn c) < fuel)%nat →
  readBuffer c = [] →
  Index (headerBuffer c) CRLFCRLF = -1 →
  header_block R → Len R ≤ headerLimit + 1 →
  R `prefix_of` headerBuffer c ++ stream (Conn c) →
  headerBuffer c ++ all_data (Conn c) = R ++ Tall →
  ∃ res, readAndStrip fuel c cap = Some res ∧ strip_outcome c cap R Tall res.
Proof.
  revert c. induction fuel as [|fuel IH]; intros c Hsz Hrb Hidx HR Hlen Hpre Hall;
    [lia|].
  cbn [readAndStrip].
  destruct (conn_Read (Conn c) tempBufSize) as [[chunk err] conn'] eqn:Hread.
  destruct err as [e|].
  { (* a failing read before the block is complete is excluded *)
    apply conn_Read_err in Hread as (_ & Hs & _).
    rewrite Hs, app_nil_r in Hpre.
    rewrite (header_block_prefix R _ HR Hpre) in Hidx. destruct HR. lia. }
  apply conn_Read_ok in Hread as (Hall' & Hs' & _ & _ & Hdec & _).
  specialize (Hdec ltac:(done)).
  cbn [headerBuffer set_headerBuffer set_Conn Conn readBuffer httpResponseDone
       connectRequest firstWrite].
  set (hb := headerBuffer c ++ chunk).
  assert (Hpre' : R `prefix_of` hb ++ stream conn').
  { unfold hb. by rewrite <- app_assoc, <- Hs'. }
  assert (Hall'' : hb ++ all_data conn' = R ++ Tall).
  { unfold hb. by rewrite <- app_assoc, <- Hall'. }
  assert (Hst : headerBuffer c ++ stream (Conn c) = hb ++ stream conn').
  { unfold hb. by rewrite <- app_assoc, <- Hs'. }
  destruct (Index hb CRLFCRLF =? -1) eqn:Hfound.
  - apply Z.eqb_eq in Hfound.
    assert (Hshort : Len hb < Len R).
    { destruct (decide (Len R ≤ Len hb)) as [Hge|]; [exfalso|lia].
      assert (Hp : R `prefix_of` hb).
      { apply (prefix_app_short _ _ _ Hpre'). unfold Len in Hge. lia. }
      rewrite (header_block_prefix R _ HR Hp) in Hfound. destruct HR. lia. }
    destruct (Len hb >? headerLimit) eqn:Hbig.
    { apply Z.gtb_lt in Hbig. lia. }
    destruct (IH (set_headerBuffer (set_Conn c conn') hb) ltac:(cbn; lia)
                ltac:(done) ltac:(done) HR Hlen Hpre' Hall'')
      as (res & Hres & Hout).
    exists res. split; [done|].
    destruct res as [[bs e] c']. unfold strip_outcome in *.
    cbn [headerBuffer set_headerBuffer set_Conn Conn readBuffer httpResponseDone]
      in Hout.
    destruct (http.ReadResponse R) as [resp|msg]; [|done].
    destruct (http.StatusCode resp =? http.StatusOK); [|done].
    destruct Hout as (? & ? & ? & ? & He & ? & Hs2). split_and!; try done.
    + intros Hne. destruct (He Hne) as [-> HeR]. split; [done|]. by rewrite Hst.
    + intros ->. rewrite Hst. by apply Hs2.
  - apply Z.eqb_neq in Hfound. pose proof (Index_ge hb CRLFCRLF) as Hge.
    assert (Hi0 : 0 ≤ Index hb CRLFCRLF) by lia.
    pose proof (Index_bound hb CRLFCRLF Hi0) as Hbound.
    change (Len CRLFCRLF) with 4 in Hbound.
    assert (Hi : Index hb CRLFCRLF + 4 = Len R).
    { pose proof (header_block_prefix R _ HR Hpre') as Hw.
      rewrite Index_app in Hw by done. lia. }
    assert (Hp : R `prefix_of` hb).
    { apply (prefix_app_short _ _ _ Hpre'). unfold Len in *. lia. }
    destruct Hp as [tls Htls].
    assert (Htake : take (Z.to_nat (Index hb CRLFCRLF + 4)) hb = R).
    { rewrite Hi, Htls. unfold Len. rewrite Nat2Z.id. apply take_app_length. }
    assert (Hdrop : drop (Z.to_nat (Index hb CRLFCRLF + 4)) hb = tls).
    { rewrite Hi, Htls. unfold Len. rewrite Nat2Z.id. apply drop_app_length. }
    assert (HT : Tall = tls ++ all_data conn').
    { rewrite Htls, <- app_assoc in Hall''. by apply app_inv_head in Hall''. }
    rewrite Htake, Hdrop. unfold strip_outcome.
    destruct (http.ReadResponse R) as [resp|msg]; [|by eexists; split].
    destruct (http.StatusCode resp =? http.StatusOK) eqn:Hok; cbn [negb];
      [|by eexists; split].
    destruct (Len tls >? 0) eqn:Hnonempty.
    + eexists; split; [done|]. cbn beta iota.
      set (copied := take (Z.to_nat cap) tls).
      assert (Hsplit : tls = copied ++ drop (length copied) tls).
      { unfold copied. rewrite length_take.
        destruct (decide (Z.to_nat cap ≤ length tls)%nat).
        - rewrite Nat.min_l by done. by rewrite take_drop.
        - rewrite Nat.min_r by lia. rewrite take_ge, drop_all by lia.
          by rewrite app_nil_r. }
      assert (Hcap : copied = take (Z.to_nat cap) copied).
      { unfold copied. rewrite take_take. f_equal. lia. }
      destruct (Len copied <? Len tls) eqn:Hpartial;
        cbn [headerBuffer set_headerBuffer set_Conn Conn readBuffer
             httpResponseDone set_httpResponseDone set_readBuffer].
      * rewrite Hrb. cbn [app]. split_and!; try done.
        -- by rewrite HT, app_assoc, <- Hsplit.
        -- intros _. by rewrite Hst, Htls, <- !app_assoc, (app_assoc copied), <- Hsplit.
      * apply Z.ltb_ge in Hpartial. rewrite Hrb. cbn [app].
        assert (Hall_copied : copied = tls).
        { unfold copied. apply take_ge. unfold copied, Len in Hpartial.
          rewrite length_take in Hpartial. lia. }
        split_and!; try done.
        -- by rewrite HT, Hall_copied.
        -- intros _. by rewrite Hst, Htls, Hall_copied, <- !app_assoc.
    + rewrite Z.gtb_ltb in Hnonempty. apply Z.ltb_ge in Hnonempty.
      assert (tls = []) as ->.
      { destruct tls; [done|]. rewrite Len_cons in Hnonempty.
        pose proof (Len_nonneg tls). lia. }
      cbn [headerBuffer set_headerBuffer set_Conn Conn readBuffer
           httpResponseDone set_httpResponseDone set_readBuffer].
      destruct (conn_Read conn' cap) as [[got err] conn''] eqn:Hread2.
      eexists; split; [done|].
      cbn [headerBuffer set_headerBuffer set_Conn Conn readBuffer
           httpResponseDone set_httpResponseDone set_readBuffer].
      rewrite Hrb. cbn [app]. destruct err as [e|]; cbn.
      * apply conn_Read_err in Hread2 as (-> & Hs2 & Ha2 & _).
        split_and!; try done.
        -- by rewrite HT, <- Ha2.
        -- intros _. split; [done|].
           rewrite Hst, Hs2, app_nil_r. by rewrite Htls, app_nil_r.
        -- by rewrite take_nil.
      * apply conn_Read_ok in Hread2 as (Ha2 & Hs2 & _ & _ & _ & Hcap).
        split_and!; try done.
        -- by rewrite HT, <- Ha2.
        -- intros _. by rewrite Hst, Htls, Hs2, <- !app_assoc.
Qed.

(** The stripping read always returns: its fuel is never exhausted. *)
Lemma readAndStrip_total fuel c cap :
  (conn_size (Conn c) < fuel)%nat → is_Some (readAndStrip fuel c cap).
Proof.
  revert c. induction fuel as [|fuel IH]; intros c Hsz; [lia|].
  cbn [readAndStrip].
  destruct (conn_Read (Conn c) tempBufSize) as [[chunk err] conn'] eqn:Hread.
  destruct err as [e|]; [by eexists|].
  apply conn_Read_ok in Hread as (_ & _ & _ & _ & Hdec & _).
  specialize (Hdec ltac:(done)).
  cbn [headerBuffer set_headerBuffer set_Conn Conn].
  destruct (_ =? -1).
  - destruct (_ >? headerLimit); [by eexists|]. apply IH. cbn. lia.
  - destruct (http.ReadResponse _) as [resp|msg]; [|by eexists].
    destruct (negb _); [by eexists|].
    destruct (_ >? 0); [by eexists|].
    cbn [headerBuffer set_headerBuffer set_Conn Conn set_httpResponseDone].
    destruct (conn_Read conn' cap) as [[got err] conn'']. by eexists.
Qed.

Lemma Read_total c cap : is_Some (SpeculativeConn_Read c cap).
Proof.
  unfold SpeculativeConn_Read, readAndStripHTTPResponse.
  destruct (_ >? 0); [by eexists|].
  destruct (negb _); [apply readAndStrip_total; lia|].
  destruct (conn_Read (Conn c) cap) as [[got err] conn']. by eexists.
Qed.

Lemma Reads_total c caps : is_Some (Reads c caps).
Proof.
  revert c. induction caps as [|cap caps IH]; intros c; [by eexists|].
  cbn [Reads]. destruct (Read_total c cap) as [[r c1] ->]. cbn.
  destruct (IH c1) as [[rs c2] ->]. by eexists.
Qed.

(** The stripping read of a stream that never shows the terminator: as soon
    as more than [headerLimit] bytes have accumulated it gives up, without
    touching the rest of the stream. *)
Lemma readAndStrip_overflow fuel c cap :
  (conn_size (Conn c) < fuel)%nat →
  Len (headerBuffer c) ≤ headerLimit →
  Index (headerBuffer c ++ stream (Conn c)) CRLFCRLF = -1 →
  headerLimit < Len (headerBuffer c ++ stream (Conn c)) →
  ∃ c', readAndStrip fuel c cap
        = Some (([], Some (Speculative
                   {| Op := "parse"; StatusCode := 0;
                      Err := Some (Errorf "HTTP response headers exceed 16KB limit") |})), c')
    ∧ headerLimit < Len (headerBuffer c') ≤ headerLimit + tempBufSize
    ∧ headerBuffer c' ++ stream (Conn c') = headerBuffer c ++ stream (Conn c)
    ∧ httpResponseDone c' = httpResponseDone c
    ∧ readBuffer c' = readBuffer c.
Proof.
  revert c. induction fuel as [|fuel IH]; intros c Hsz Hsmall Hidx Hbig; [lia|].
  cbn [readAndStrip].
  destruct (conn_Read (Conn c) tempBufSize) as [[chunk err] conn'] eqn:Hread.
  destruct err as [e|].
  { apply conn_Read_err in Hread as (_ & Hs & _).
    rewrite Hs, app_nil_r in Hbig. lia. }
  apply conn_Read_ok in Hread as (_ & Hs' & _ & _ & Hdec & Hchunk).
  specialize (Hdec ltac:(done)).
  cbn [headerBuffer set_headerBuffer set_Conn Conn readBuffer httpResponseDone].
  set (hb := headerBuffer c ++ chunk).
  assert (Hst : headerBuffer c ++ stream (Conn c) = hb ++ stream conn').
  { unfold hb. by rewrite <- app_assoc, <- Hs'. }
  rewrite Hst in Hidx, Hbig.
  rewrite (Index_app_none _ _ _ Hidx). cbn [Z.eqb Pos.eqb].
  destruct (Len hb >? headerLimit) eqn:Hover.
  - apply Z.gtb_lt in Hover. eexists. split; [done|].
    cbn [headerBuffer set_headerBuffer set_Conn Conn readBuffer httpResponseDone].
    fold hb. split_and!; try done.
    unfold hb. rewrite Len_app.
    assert (Len chunk ≤ tempBufSize); [|lia].
    rewrite Hchunk. unfold Len. rewrite length_take. unfold tempBufSize. lia.
  - rewrite Z.gtb_ltb in Hover. apply Z.ltb_ge in Hover.
    destruct (IH (set_headerBuffer (set_Conn c conn') hb) ltac:(cbn; lia)
                ltac:(done) ltac:(done) ltac:(done))
      as (c' & -> & Hlim & Hc' & Hd' & Hr').
    cbn [headerBuffer set_headerBuffer set_Conn Conn readBuffer httpResponseDone]
      in Hc', Hd', Hr'.
    exists c'. split_and!; try done; [apply Hlim..|]. by rewrite Hst.
Qed.

(** ** Reads after the response has been stripped *)

(** Surplus bytes are handed out before the wrapped connection is read. *)
Lemma Read_buffered c cap :
  readBuffer c ≠ [] →
  SpeculativeConn_Read c cap
  = Some ((take (Z.to_nat cap) (readBuffer c), None),
          set_readBuffer c (drop (Z.to_nat cap) (readBuffer c))).
Proof.
  intros Hne. unfold SpeculativeConn_Read.
  destruct (Len (readBuffer c) >? 0) eqn:E; [done|].
  rewrite Z.gtb_ltb in E. apply Z.ltb_ge in E.
  destruct (readBuffer c); [done|]. rewrite Len_cons in E.
  pose proof (Len_nonneg l). lia.
Qed.

Lemma Read_done c cap :
  httpResponseDone c = true →
  ∃ bs e c', SpeculativeConn_Read c cap = Some ((bs, e), c')
    ∧ httpResponseDone c' = true
    ∧ (e ≠ None → bs = [])
    ∧ readBuffer c ++ all_data (Conn c) = bs ++ readBuffer c' ++ all_data (Conn c').
Proof.
  intros Hdone. destruct (decide (readBuffer c = [])) as [Hrb|Hrb].
  - unfold SpeculativeConn_Read. rewrite Hrb, Hdone. cbn.
    destruct (conn_Read (Conn c) cap) as [[got err] conn'] eqn:Hread.
    eexists _, _, _. split; [done|]. cbn. rewrite Hrb. cbn [app].
    destruct err as [e|].
    + apply conn_Read_err in Hread as (-> & _ & Ha & _). by rewrite Ha.
    + apply conn_Read_ok in Hread as (Ha & _). by rewrite Ha.
  - rewrite (Read_buffered c cap Hrb). eexists _, _, _. split; [done|]. cbn.
    split_and!; try done. by rewrite app_assoc, take_drop.
Qed.

Lemma Reads_done c caps :
  httpResponseDone c = true →
  ∃ rs c', Reads c caps = Some (rs, c')
    ∧ httpResponseDone c' = true
    ∧ readBuffer c ++ all_data (Conn c)
      = delivered rs ++ readBuffer c' ++ all_data (Conn c').
Proof.
  revert c. induction caps as [|cap caps IH]; intros c Hdone.
  - by eexists _, _.
  - cbn [Reads].
    destruct (Read_done c cap Hdone) as (bs & e & c1 & -> & Hd1 & He & H1). cbn.
    destruct (IH c1 Hd1) as (rs & c2 & -> & Hd2 & H2). cbn.
    eexists _, _. split; [done|]. split; [done|].
    rewrite H1, H2. unfold delivered. cbn.
    destruct e as [e|]; cbn.
    + by rewrite (He ltac:(done)).
    + by rewrite <- !app_assoc.
Qed.

(** ** Conservation of the stream, whatever the proxy answers

    A read in the state where the response has not been stripped yet either
    leaves that state as it is, hands out nothing and keeps every byte
    (in the header buffer or still to come), or it strips: then the bytes up
    to and including the first CRLF CRLF are gone and everything after them is
    handed out, buffered or still to come, in order. *)
Lemma readAndStrip_conserves fuel c cap bs e c' :
  httpResponseDone c = false → readBuffer c = [] →
  readAndStrip fuel c cap = Some ((bs, e), c') →
  (e ≠ None → bs = [])
  ∧ if httpResponseDone c' then
      0 ≤ Index (headerBuffer c ++ all_data (Conn c)) CRLFCRLF
      ∧ after_terminator (headerBuffer c ++ all_data (Conn c))
        = bs ++ readBuffer c' ++ all_data (Conn c')
    else
      bs = [] ∧ readBuffer c' = []
      ∧ headerBuffer c' ++ all_data (Conn c') = headerBuffer c ++ all_data (Conn c).
Proof.
  revert c. induction fuel as [|fuel IH]; intros c Hd Hrb; [done|].
  cbn [readAndStrip].
  destruct (conn_Read (Conn c) tempBufSize) as [[chunk err] conn'] eqn:Hread.
  destruct err as [e0|].
  { apply conn_Read_err in Hread as (_ & _ & Ha & _).
    intros [= <- <- <-]. cbn. rewrite Hd. by rewrite Ha. }
  apply conn_Read_ok in Hread as (Ha & _).
  cbn [headerBuffer set_headerBuffer set_Conn Conn readBuffer httpResponseDone].
  set (hb := headerBuffer c ++ chunk).
  assert (HA : headerBuffer c ++ all_data (Conn c) = hb ++ all_data conn').
  { unfold hb. by rewrite <- app_assoc, <- Ha. }
  rewrite HA.
  destruct (Index hb CRLFCRLF =? -1) eqn:Hfound.
  { destruct (Len hb >? headerLimit).
    - intros [= <- <- <-]. cbn. by rewrite Hd.
    - intros Hrun.
      by apply (IH (set_headerBuffer (set_Conn c conn') hb) Hd Hrb) in Hrun. }
  apply Z.eqb_neq in Hfound. pose proof (Index_ge hb CRLFCRLF) as Hge.
  assert (Hi0 : 0 ≤ Index hb CRLFCRLF) by lia.
  pose proof (Index_bound hb CRLFCRLF Hi0) as Hbound.
  change (Len CRLFCRLF) with 4 in Hbound.
  destruct (http.ReadResponse _) as [resp|msg];
    [|intros [= <- <- <-]; cbn; by rewrite Hd].
  destruct (negb _); [intros [= <- <- <-]; cbn; by rewrite Hd|].
  set (tls := drop (Z.to_nat (Index hb CRLFCRLF + 4)) hb).
  assert (Hafter : after_terminator (hb ++ all_data conn') = tls ++ all_data conn').
  { unfold after_terminator. rewrite Index_app by done.
    rewrite drop_app_le; [done|]. unfold Len in Hbound. lia. }
  rewrite Hafter, Index_app by done.
  destruct (Len tls >? 0) eqn:Hnonempty.
  - set (copied := take (Z.to_nat cap) tls).
    assert (Hsplit : tls = copied ++ drop (length copied) tls).
    { unfold copied. rewrite length_take.
      destruct (decide (Z.to_nat cap ≤ length tls)%nat).
      - rewrite Nat.min_l by done. by rewrite take_drop.
      - rewrite Nat.min_r by lia. rewrite take_ge, drop_all by lia.
        by rewrite app_nil_r. }
    destruct (Len copied <? Len tls) eqn:Hpartial; intros [= <- <- <-];
      cbn [headerBuffer set_headerBuffer set_Conn Conn readBuffer
           httpResponseDone set_httpResponseDone set_readBuffer];
      rewrite ?Hrb; cbn [app]; split_and!; try done.
    + by rewrite app_assoc, <- Hsplit.
    + apply Z.ltb_ge in Hpartial.
      assert (copied = tls) as ->; [|done].
      unfold copied. apply take_ge. unfold copied, Len in Hpartial.
      rewrite length_take in Hpartial. lia.
  - rewrite Z.gtb_ltb in Hnonempty. apply Z.ltb_ge in Hnonempty.
    assert (tls = []) as ->.
    { destruct tls; [done|]. rewrite Len_cons in Hnonempty.
      pose proof (Len_nonneg tls). lia. }
    cbn [headerBuffer set_headerBuffer set_Conn Conn readBuffer
         httpResponseDone set_httpResponseDone set_readBuffer].
    destruct (conn_Read conn' cap) as [[got err] conn''] eqn:Hread2.
    intros [= <- <- <-].
    cbn [headerBuffer set_headerBuffer set_Conn Conn readBuffer
         httpResponseDone set_httpResponseDone set_readBuffer].
    rewrite Hrb. cbn [app]. destruct err as [e0|]; cbn.
    + apply conn_Read_err in Hread2 as (-> & _ & Ha2 & _). by split_and!.
    + apply conn_Read_ok in Hread2 as (Ha2 & _). by split_and!.
Qed.

Lemma Read_not_done c cap :
  httpResponseDone c = false → readBuffer c = [] →
  SpeculativeConn_Read c cap = readAndStrip (S (conn_size (Conn c))) c cap.
Proof.
  intros Hd Hrb. unfold SpeculativeConn_Read, readAndStripHTTPResponse.
  by rewrite Hrb, Hd.
Qed.

(** The same for a run of reads that starts before the response has been
    stripped and has stripped it by its end. *)
Lemma Reads_conserve c caps rs c' :
  httpResponseDone c = false → readBuffer c = [] →
  Reads c caps = Some (rs, c') →
  httpResponseDone c' = true →
  0 ≤ Index (headerBuffer c ++ all_data (Conn c)) CRLFCRLF
  ∧ after_terminator (headerBuffer c ++ all_data (Conn c))
    = delivered rs ++ readBuffer c' ++ all_data (Conn c').
Proof.
  revert c rs. induction caps as [|cap caps IH]; intros c rs Hd Hrb.
  - intros [= <- <-] Hd'. congruence.
  - cbn [Reads]. rewrite (Read_not_done c cap Hd Hrb).
    destruct (readAndStrip _ c cap) as [[[bs e] c1]|] eqn:Hrun; [|done]. cbn.
    destruct (Reads c1 caps) as [[rs1 c2]|] eqn:Hrest; [|done]. cbn.
    intros [= <- <-] Hd'.
    destruct (readAndStrip_conserves _ _ _ _ _ _ Hd Hrb Hrun) as [He Hcase].
    destruct (httpResponseDone c1) eqn:Hd1.
    + destruct Hcase as [Hi Hafter]. split; [done|].
      destruct (Reads_done c1 caps Hd1) as (rs' & c2' & Hr & _ & Hcons).
      rewrite Hrest in Hr. injection Hr as <- <-.
      rewrite Hafter, Hcons. unfold delivered. cbn.
      destruct e as [e|]; cbn.
      * by rewrite (He ltac:(done)).
      * by rewrite <- !app_assoc.
    + destruct Hcase as (-> & Hrb1 & HA).
      destruct (IH c1 rs1 Hd1 Hrb1 Hrest Hd') as [Hi Hafter].
      rewrite HA in Hi, Hafter. split; [done|].
      rewrite Hafter. unfold delivered. cbn. by destruct e.
Qed.

Lemma stream_prefix_all_data conn : stream conn `prefix_of` all_data conn.
Proof.
  unfold stream, all_data.
  induction (incoming conn) as [|[d|e] rest IH]; cbn.
  - done.
  - by apply prefix_app.
  - apply prefix_nil.
Qed.

End StripFacts.
(* ===================================================================== *)
(** * The speculative connection: reads *)
(* ===================================================================== *)

Section ReadProperties.
Import Bytes Transport TransportSpec.

Lemma awaiting_read {reader : http.Reader} c cap :
  awaiting_response c →
  SpeculativeConn_Read c cap = readAndStrip (S (conn_size (Conn c))) c cap.
Proof.
  intros (Hd & Hrb & _). by apply Read_not_done.
Qed.

(** C2.  Let the wrapped connection deliver, without a failing read, a
    response block [R] (it ends with its first CRLF CRLF) that the response
    reader accepts with status 200 and that is at most [headerLimit + 1]
    = 16385 bytes long, followed by [T].  Then the first [Read], whatever the
    segmentation of the stream and the size of the caller's buffer, returns,
    marks the response as done, empties the header buffer, and hands the
    caller a prefix of [T] only: no byte of [R].  It never fails with a
    speculative error, it succeeds when [T] is not empty, and what it did not
    hand out is still pending, in order, in the read buffer and the stream. *)
Theorem C2_first_read_strips_response :
  ∀ (reader : http.Reader) (c : SpeculativeConn) (cap : Z)
    (R T : list byte) (resp : http.Response),
    awaiting_response c →
    header_block R → Len R ≤ headerLimit + 1 →
    http.ReadResponse R = inl resp → http.StatusCode resp = http.StatusOK →
    stream (Conn c) = R ++ T →
    ∃ bs e c',
      SpeculativeConn_Read c cap = Some ((bs, e), c')
      ∧ httpResponseDone c' = true ∧ headerBuffer c' = []
      ∧ bs `prefix_of` T
      ∧ IsSpeculativeTLSError e = false
      ∧ (T ≠ [] → e = None)
      ∧ (e = None → T = bs ++ readBuffer c' ++ stream (Conn c')).
Proof.
  intros reader c cap R T resp Haw HR Hlen Hresp Hok Hstream.
  rewrite (awaiting_read c cap Haw). destruct Haw as (Hd & Hrb & Hhb).
  destruct (stream_prefix_all_data (Conn c)) as [X HX].
  destruct (readAndStrip_response (S (conn_size (Conn c))) c cap R (T ++ X))
    as ([[bs e] c'] & Hrun & Hout).
  - lia.
  - done.
  - by rewrite Hhb.
  - done.
  - done.
  - rewrite Hhb, Hstream. cbn [app]. by exists T.
  - rewrite Hhb, HX, Hstream. cbn [app]. by rewrite app_assoc.
  - exists bs, e, c'. split; [done|].
    unfold strip_outcome in Hout. rewrite Hresp, Hok in Hout. cbn in Hout.
    destruct Hout as (Hd' & Hhb' & _ & Hspec & Herr & _ & Hs).
    rewrite Hhb, Hstream in Herr, Hs. cbn [app] in Herr, Hs.
    assert (HT : e = None → T = bs ++ readBuffer c' ++ stream (Conn c')).
    { intros He. specialize (Hs He). by apply app_inv_head in Hs. }
    split_and!; try done.
    + destruct e as [e|].
      * destruct (Herr ltac:(done)) as [-> _]. apply prefix_nil.
      * rewrite (HT eq_refl). by eexists.
    + intros HTne. destruct e as [e|]; [|done].
      destruct (Herr ltac:(done)) as [_ HRT].
      rewrite <- (app_nil_r R) in HRT at 2. by apply app_inv_head in HRT.
Qed.

(** C4.  Let the wrapped connection deliver, without a failing read, a
    response block [R] of at most [headerLimit + 1] = 16385 bytes that the
    response reader accepts with a status code other than 200.  Then the first
    [Read] returns no byte and a [SpeculativeTLSError] whose [Op] is "status",
    whose [StatusCode] is the proxy's status code and whose cause is the
    status text; the response is not marked as done and nothing is buffered
    for later reads. *)
Theorem C4_non_200_status_is_typed_error :
  ∀ (reader : http.Reader) (c : SpeculativeConn) (cap : Z)
    (R : list byte) (resp : http.Response),
    awaiting_response c →
    header_block R → Len R ≤ headerLimit + 1 →
    http.ReadResponse R = inl resp → http.StatusCode resp ≠ http.StatusOK →
    R `prefix_of` stream (Conn c) →
    ∃ c',
      SpeculativeConn_Read c cap
      = Some (([], Some (Speculative
                 {| Op := "status"; StatusCode := http.StatusCode resp;
                    Err := Some (Errorf (http.Status resp)) |})), c')
      ∧ httpResponseDone c' = false ∧ readBuffer c' = [].
Proof.
  intros reader c cap R resp Haw HR Hlen Hresp Hok Hpre.
  rewrite (awaiting_read c cap Haw). destruct Haw as (Hd & Hrb & Hhb).
  assert (Hall : ∃ Tall, all_data (Conn c) = R ++ Tall).
  { destruct (stream_prefix_all_data (Conn c)) as [X HX].
    destruct Hpre as [Y HY]. exists (Y ++ X). by rewrite HX, HY, app_assoc. }
  destruct Hall as [Tall Hall].
  destruct (readAndStrip_response (S (conn_size (Conn c))) c cap R Tall)
    as ([[bs e] c'] & Hrun & Hout); try done.
  - lia.
  - by rewrite Hhb.
  - by rewrite Hhb.
  - by rewrite Hhb.
  - unfold strip_outcome in Hout. rewrite Hresp in Hout.
    apply Z.eqb_neq in Hok. rewrite Hok in Hout.
    destruct Hout as (-> & -> & Hd' & Hrb'). exists c'.
    split_and!; [done| |done]. by rewrite Hd'.
Qed.

(** C5.  Let the bytes that the wrapped connection delivers before its first
    failing read contain no CRLF CRLF and be more than [headerLimit] = 16384.
    Then the first [Read] returns no byte and a [SpeculativeTLSError] whose
    [Op] is "parse"; at that moment the header buffer holds more than 16384
    and at most 16384 + 8192 bytes (the check follows each read of at most
    8192 bytes), and the rest of the stream has not been read. *)
Theorem C5_header_accumulation_is_bounded :
  ∀ (reader : http.Reader) (c : SpeculativeConn) (cap : Z),
    awaiting_response c →
    Index (stream (Conn c)) CRLFCRLF = -1 →
    headerLimit < Len (stream (Conn c)) →
    ∃ c',
      SpeculativeConn_Read c cap
      = Some (([], Some (Speculative
                 {| Op := "parse"; StatusCode := 0;
                    Err := Some (Errorf "HTTP response headers exceed 16KB limit") |})), c')
      ∧ headerLimit < Len (headerBuffer c') ≤ headerLimit + tempBufSize
      ∧ headerBuffer c' ++ stream (Conn c') = stream (Conn c)
      ∧ httpResponseDone c' = false ∧ readBuffer c' = [].
Proof.
  intros reader c cap Haw Hidx Hbig.
  rewrite (awaiting_read c cap Haw). destruct Haw as (Hd & Hrb & Hhb).
  destruct (readAndStrip_overflow (S (conn_size (Conn c))) c cap)
    as (c' & Hrun & Hlim & Hst & Hd' & Hrb'); rewrite ?Hhb; cbn [app]; try done.
  - lia.
  - exists c'. rewrite Hhb in Hst. cbn [app] in Hst.
    split_and!; try done; [apply Hlim..| |]; congruence.
Qed.


End ReadProperties.

(* ===================================================================== *)
(** * The speculative connection: writes *)
(* ===================================================================== *)

Section WriteProperties.
Import Bytes Transport TransportSpec.

Lemma conn_Write_written conn b :
  written (conn_Write conn b).2 = written conn ++ [b].
Proof. unfold conn_Write. by destruct (outcomes conn) as [|[|] ?]. Qed.

(** After the first write went through, a write is the wrapped connection's. *)
Lemma Write_pass_through c b :
  firstWrite c = true →
  SpeculativeConn_Write c b
  = (lift (conn_Write (Conn c) b).1, set_Conn c (conn_Write (Conn c) b).2).
Proof.
  intros H. unfold SpeculativeConn_Write. rewrite H. cbn [negb].
  by destruct (conn_Write (Conn c) b) as [[n err] conn'].
Qed.

Lemma Writes_pass_through c bs :
  firstWrite c = true →
  (Writes c bs).1 = lift <$> (conn_Writes (Conn c) bs).1
  ∧ Conn (Writes c bs).2 = (conn_Writes (Conn c) bs).2
  ∧ firstWrite (Writes c bs).2 = true
  ∧ written (Conn (Writes c bs).2) = written (Conn c) ++ bs.
Proof.
  revert c. induction bs as [|b bs IH]; intros c H.
  - cbn. by rewrite app_nil_r.
  - cbn [Writes conn_Writes]. rewrite (Write_pass_through c b H).
    destruct (conn_Write (Conn c) b) as [r conn'] eqn:Hw. cbn [fst snd].
    destruct (IH (set_Conn c conn') H) as (H1 & H2 & H3 & H4).
    cbn [Conn set_Conn] in H1, H2, H4.
    destruct (Writes (set_Conn c conn') bs) as [rs c2].
    destruct (conn_Writes conn' bs) as [rs' conn2]. cbn [fst snd] in *.
    split_and!; try done.
    + cbn. by rewrite H1.
    + rewrite H4. pose proof (conn_Write_written (Conn c) b) as Hlog.
      rewrite Hw in Hlog. cbn in Hlog. rewrite Hlog. by rewrite <- app_assoc.
Qed.

(** C3.  On a connection created with CONNECT request [R], the first
    [Write b] hands the wrapped connection exactly one buffer, [R ++ b].  If
    the wrapped connection reports an error, the write returns 0 and a
    [SpeculativeTLSError] with [Op] "write"; otherwise it reports [len b]
    bytes, and from then on every [Write] is the wrapped connection's [Write]
    on the same bytes, with the same result. *)
Theorem C3_first_write_prepends_connect_request :
  ∀ (conn : NetConn) (R b : list byte),
    ∃ n err c1,
      SpeculativeConn_Write (NewSpeculativeConn conn R) b = ((n, err), c1)
      ∧ written (Conn c1) = written conn ++ [R ++ b]
      ∧ Conn c1 = (conn_Write conn (R ++ b)).2
      ∧ match (conn_Write conn (R ++ b)).1.2 with
        | Some e =>
            n = 0 ∧ err = Some (Speculative {| Op := "write"; StatusCode := 0;
                                               Err := Some (ConnErr e) |})
        | None =>
            n = Len b ∧ err = None
            ∧ ∀ bs : list (list byte),
                (Writes c1 bs).1 = lift <$> (conn_Writes (Conn c1) bs).1
                ∧ Conn (Writes c1 bs).2 = (conn_Writes (Conn c1) bs).2
                ∧ written (Conn (Writes c1 bs).2) = written (Conn c1) ++ bs
        end.
Proof.
  intros conn R b. unfold SpeculativeConn_Write, NewSpeculativeConn.
  cbn [firstWrite negb connectRequest Conn].
  pose proof (conn_Write_written conn (R ++ b)) as Hlog.
  destruct (conn_Write conn (R ++ b)) as [[n0 err0] conn'] eqn:Hw.
  cbn [fst snd] in *. destruct err0 as [e|].
  - eexists _, _, _. split; [done|]. cbn. by split_and!.
  - eexists _, _, _. split; [done|]. cbn [Conn set_Conn set_firstWrite].
    split_and!; try done. intros bs.
    match goal with |- context [Writes ?c bs] =>
      destruct (Writes_pass_through c bs eq_refl) as (H1 & H2 & _ & H4) end.
    by split_and!.
Qed.

End WriteProperties.
(* ===================================================================== *)
(** * The speculative connection on concrete streams *)
(* ===================================================================== *)

Section TransportOnStreams.
Import Bytes Transport TransportSpec.

Ltac block := split; [apply Z.leb_le | apply Z.eqb_eq]; vm_compute; reflexivity.
Ltac small := apply Z.leb_le; vm_compute; reflexivity.
Ltac same := apply (bool_decide_unpack _); vm_compute; exact I.

(** The 200 response arrives in two reads; the caller's buffer has room for
    two bytes. *)
Lemma C2_witness_split_response :
  ∃ bs e c',
    SpeculativeConn_Read (reader := http.statusLineReader)
      (NewSpeculativeConn splitConn connectReq) 2 = Some ((bs, e), c')
    ∧ httpResponseDone c' = true ∧ headerBuffer c' = []
    ∧ bs `prefix_of` serverHello
    ∧ IsSpeculativeTLSError e = false
    ∧ (serverHello ≠ [] → e = None)
    ∧ (e = None → serverHello = bs ++ readBuffer c' ++ stream (Conn c')).
Proof.
  apply (C2_first_read_strips_response http.statusLineReader
           (NewSpeculativeConn splitConn connectReq) 2 ok200 serverHello resp200).
  - repeat split; reflexivity.
  - block.
  - small.
  - vm_compute; reflexivity.
  - reflexivity.
  - vm_compute; reflexivity.
Defined.

(** A wrapped connection that rejects the first write: the [Write] fails
    with [Op] "write" and leaves [firstWrite] unset, and the second [Write]
    does not pass its bytes through unchanged; it hands the wrapped
    connection the CONNECT request followed by the bytes once more. *)
Lemma C3_counterexample_failed_first_write :
  (SpeculativeConn_Write flakyConn serverHello).1
  = (0, write_error (NetError "broken pipe"))
  ∧ firstWrite (SpeculativeConn_Write flakyConn serverHello).2 = false
  ∧ written (Conn (SpeculativeConn_Write
                     (SpeculativeConn_Write flakyConn serverHello).2
                     [x17; x03; x03]).2)
    = [connectReq ++ serverHello; connectReq ++ [x17; x03; x03]]
  ∧ written (conn_Write (Conn (SpeculativeConn_Write flakyConn serverHello).2)
               [x17; x03; x03]).2
    = [connectReq ++ serverHello; [x17; x03; x03]]
  ∧ connectReq ++ [x17; x03; x03] ≠ [x17; x03; x03].
Proof.
  split_and!; try reflexivity. discriminate.
Qed.

(** A well-formed 200 response whose header block is larger than 16 KiB,
    delivered whole and followed by TLS data: the first [Read] does not strip
    it; it fails with a "parse" error and hands out nothing. *)
Lemma C2_counterexample_oversized_response :
  awaiting_response (NewSpeculativeConn (mockConn [big200 ++ serverHello]) connectReq)
  ∧ header_block big200
  ∧ http.ReadResponse (Reader := http.statusLineReader) big200 = inl resp200
  ∧ stream (mockConn [big200 ++ serverHello]) = big200 ++ serverHello
  ∧ fst <$> SpeculativeConn_Read (reader := http.statusLineReader)
              (NewSpeculativeConn (mockConn [big200 ++ serverHello]) connectReq) 1024
    = Some ([], Some (Speculative
               {| Op := "parse"; StatusCode := 0;
                  Err := Some (Errorf "HTTP response headers exceed 16KB limit") |}))
  ∧ (httpResponseDone ∘ snd) <$> SpeculativeConn_Read (reader := http.statusLineReader)
              (NewSpeculativeConn (mockConn [big200 ++ serverHello]) connectReq) 1024
    = Some false.
Proof.
  split_and!.
  - repeat split; reflexivity.
  - block.
  - vm_compute; reflexivity.
  - same.
  - vm_compute; reflexivity.
  - vm_compute; reflexivity.
Qed.

(** The 407 answer of the repository's test. *)
Lemma C4_witness_407 :
  ∃ c',
    SpeculativeConn_Read (reader := http.statusLineReader)
      (NewSpeculativeConn (mockConn [auth407]) connectReq) 1024
    = Some (([], Some (Speculative
               {| Op := "status"; StatusCode := http.StatusCode resp407;
                  Err := Some (Errorf (http.Status resp407)) |})), c')
    ∧ httpResponseDone c' = false ∧ readBuffer c' = [].
Proof.
  apply (C4_non_200_status_is_typed_error http.statusLineReader
           (NewSpeculativeConn (mockConn [auth407]) connectReq) 1024 auth407 resp407).
  - repeat split; reflexivity.
  - block.
  - small.
  - vm_compute; reflexivity.
  - vm_compute. discriminate.
  - exists []. vm_compute; reflexivity.
Defined.

(** A complete 407 response whose header block is larger than 16 KiB: the
    first [Read] fails with [Op] "parse" and status code 0, not with "status"
    and 407. *)
Lemma C4_counterexample_oversized_407 :
  awaiting_response (NewSpeculativeConn (mockConn [big407]) connectReq)
  ∧ header_block big407
  ∧ http.ReadResponse (Reader := http.statusLineReader) big407 = inl resp407
  ∧ stream (mockConn [big407]) = big407
  ∧ fst <$> SpeculativeConn_Read (reader := http.statusLineReader)
              (NewSpeculativeConn (mockConn [big407]) connectReq) 1024
    = Some ([], Some (Speculative
               {| Op := "parse"; StatusCode := 0;
                  Err := Some (Errorf "HTTP response headers exceed 16KB limit") |})).
Proof.
  split_and!.
  - repeat split; reflexivity.
  - block.
  - vm_compute; reflexivity.
  - same.
  - vm_compute; reflexivity.
Qed.

(** 17 000 bytes in segments of 4096 without a blank line, as in the
    repository's test: the fifth segment takes the buffer over the limit. *)
Lemma C5_witness_endless_header :
  ∃ c',
    SpeculativeConn_Read (reader := http.statusLineReader)
      (NewSpeculativeConn endlessConn connectReq) 1024
    = Some (([], Some (Speculative
               {| Op := "parse"; StatusCode := 0;
                  Err := Some (Errorf "HTTP response headers exceed 16KB limit") |})), c')
    ∧ headerLimit < Len (headerBuffer c') ≤ headerLimit + tempBufSize
    ∧ headerBuffer c' ++ stream (Conn c') = stream endlessConn
    ∧ httpResponseDone c' = false ∧ readBuffer c' = [].
Proof.
  apply (C5_header_accumulation_is_bounded http.statusLineReader
           (NewSpeculativeConn endlessConn connectReq) 1024).
  - repeat split; reflexivity.
  - vm_compute; reflexivity.
  - vm_compute; reflexivity.
Defined.


(** The same run, evaluated: the seven bytes after the response come out in
    order, two at a time, and the next read meets the end of the stream. *)
Example reads_small_buffer :
  fst <$> Reads (reader := http.statusLineReader)
    (NewSpeculativeConn (mockConn [ok200 ++ serverHello; [x14; x03]]) connectReq)
    [2; 2; 2; 2; 2]
  = Some [([x16; x03], None); ([x03; x00], None); ([x05], None);
          ([x14; x03], None); ([], Some (Underlying EOF))].
Proof. vm_compute; reflexivity. Qed.

(** The worst case of the repository's test, one byte per read: the 19 bytes
    of the response are seen by 19 nested activations of
    [readAndStripHTTPResponse], not by one that loops. *)
Example byte_at_a_time_nests_one_call_per_read :
  let c := NewSpeculativeConn
             (mockConn (((λ b, [b]) <$> ok200) ++ [[x16; x03]])) connectReq in
  fst <$> SpeculativeConn_Read (reader := http.statusLineReader) c 1024
  = Some ([x16; x03], None)
  ∧ activations (S (conn_size (Conn c))) c = 19%nat.
Proof. split; vm_compute; reflexivity. Qed.

End TransportOnStreams.
(* ===================================================================== *)
(** * The speculative connection: what every read and write respects *)
(* ===================================================================== *)

Section ReadShape.
Import Bytes Transport TransportSpec.
Context {reader : http.Reader}.

Lemma conn_Read_length c cap bs e c' :
  conn_Read c cap = ((bs, e), c') → (length bs ≤ Z.to_nat cap)%nat.
Proof.
  destruct e as [e|]; intros H.
  - apply conn_Read_err in H as (-> & _). cbn. lia.
  - apply conn_Read_ok in H as (_ & _ & _ & _ & _ & Ht).
    rewrite Ht, length_take. lia.
Qed.

Local Ltac in_list :=
  unfold read_ops; repeat first [apply list_elem_of_here | apply list_elem_of_further].

Lemma readAndStrip_kind fuel c cap res :
  httpResponseDone c = false → readBuffer c = [] →
  readAndStrip fuel c cap = Some res → strip_kind cap res.
Proof.
  revert c. induction fuel as [|fuel IH]; intros c Hd Hrb; [done|].
  cbn [readAndStrip].
  destruct (conn_Read (Conn c) tempBufSize) as [[chunk err] conn'] eqn:Hread.
  destruct err as [e0|].
  { intros [= <-]. cbn. unfold read_ops. split_and!; try done; try lia.
    - in_list.
    - intros [?|[m ?]]; done. }
  cbn [headerBuffer set_headerBuffer set_Conn Conn readBuffer httpResponseDone].
  set (hb := headerBuffer c ++ chunk).
  destruct (Index hb CRLFCRLF =? -1) eqn:Hfound.
  { destruct (Len hb >? headerLimit).
    - intros [= <-]. cbn. unfold read_ops. split_and!; try done; try lia.
      + in_list.
      + intros [?|[m ?]]; done.
    - intros Hrun.
      by apply (IH (set_headerBuffer (set_Conn c conn') hb) Hd Hrb) in Hrun. }
  apply Z.eqb_neq in Hfound. pose proof (Index_ge hb CRLFCRLF) as Hge.
  assert (Hi0 : 0 ≤ Index hb CRLFCRLF) by lia.
  destruct (http.ReadResponse _) as [resp|msg] eqn:Hresp.
  2:{ intros [= <-]. cbn. unfold read_ops. split_and!; try done; try lia.
      - in_list.
      - intros _. split_and!; try done. cbn. intros resp'. by rewrite Hresp. }
  destruct (negb _) eqn:Hstatus.
  { intros [= <-]. cbn. unfold read_ops.
    apply negb_true_iff, Z.eqb_neq in Hstatus.
    split_and!; try done; try lia.
    - in_list.
    - intros _. split_and!; try done. cbn. intros resp'. rewrite Hresp.
      by intros [= <-]. }
  set (tls := drop (Z.to_nat (Index hb CRLFCRLF + 4)) hb).
  destruct (Len tls >? 0) eqn:Hnonempty.
  - destruct (Len (take (Z.to_nat cap) tls) <? Len tls); intros [= <-]; cbn;
      (split; [rewrite length_take; lia|done]).
  - cbn [headerBuffer set_headerBuffer set_Conn Conn readBuffer
         httpResponseDone set_httpResponseDone set_readBuffer].
    destruct (conn_Read conn' cap) as [[got err] conn''] eqn:Hread2.
    intros [= <-]. cbn. split; [by eapply conn_Read_length|].
    destruct err as [e0|]; cbn; [|done].
    by apply conn_Read_err in Hread2 as (-> & _).
Qed.

(** A read that ends with a [SpeculativeTLSError] was a stripping read. *)
Lemma Read_speculative c cap bs s c' :
  SpeculativeConn_Read c cap = Some ((bs, Some (Speculative s)), c') →
  httpResponseDone c = false ∧ readBuffer c = []
  ∧ readAndStrip (S (conn_size (Conn c))) c cap
    = Some ((bs, Some (Speculative s)), c').
Proof.
  destruct (decide (readBuffer c = [])) as [Hrb|Hrb].
  2:{ by rewrite (Read_buffered c cap Hrb). }
  destruct (httpResponseDone c) eqn:Hd.
  - unfold SpeculativeConn_Read. rewrite Hrb, Hd. cbn.
    destruct (conn_Read (Conn c) cap) as [[got [e|]] conn']; by intros [=].
  - by rewrite (Read_not_done c cap Hd Hrb).
Qed.

Lemma Read_kind c cap :
  ∃ bs e c',
    SpeculativeConn_Read c cap = Some ((bs, e), c')
    ∧ (length bs ≤ Z.to_nat cap)%nat
    ∧ (e ≠ None → bs = [])
    ∧ (e ≠ None → (IsSpeculativeTLSError e = true ↔ httpResponseDone c' = false))
    ∧ (httpResponseDone c = true → httpResponseDone c' = true)
    ∧ (∀ s, e = Some (Speculative s) →
         Op s ∈ read_ops
         ∧ (Op s ≠ "status"%string → StatusCode s = 0)
         ∧ (Op s = "status"%string → StatusCode s ≠ http.StatusOK)).
Proof.
  destruct (decide (readBuffer c = [])) as [Hrb|Hrb].
  2:{ rewrite (Read_buffered c cap Hrb). eexists _, _, _. split; [done|].
      cbn. rewrite length_take. split_and!; try done; lia. }
  destruct (httpResponseDone c) eqn:Hd.
  - unfold SpeculativeConn_Read. rewrite Hrb, Hd. cbn.
    destruct (conn_Read (Conn c) cap) as [[got err] conn'] eqn:Hread.
    eexists _, _, _. split; [done|]. cbn.
    split; [by eapply conn_Read_length|].
    destruct err as [e|]; cbn; [|done].
    apply conn_Read_err in Hread as (-> & _). by rewrite Hd.
  - rewrite (Read_not_done c cap Hd Hrb).
    destruct (readAndStrip_total (S (conn_size (Conn c))) c cap ltac:(lia))
      as [[[bs e] c'] Hrun].
    rewrite Hrun. eexists _, _, _. split; [done|].
    apply (readAndStrip_kind _ _ _ _ Hd Hrb) in Hrun as [Hlen Hk].
    split; [done|].
    destruct e as [[e|s]|]; cbn.
    + destruct Hk as [-> ->]. by split_and!.
    + destruct Hk as (-> & -> & _ & Hop & H0 & H200 & _).
      split_and!; try done. by intros s' [= <-].
    + by split_and!.
Qed.

Lemma rejected_Read c cap :
  rejected c →
  ∃ e c', SpeculativeConn_Read c cap = Some (([], Some (Speculative e)), c')
          ∧ rejected c'.
Proof.
  intros (Hd & Hrb & Hi & Hresp).
  rewrite (Read_not_done c cap Hd Hrb). cbn [readAndStrip].
  destruct (conn_Read (Conn c) tempBufSize) as [[chunk err] conn'] eqn:Hread.
  destruct err as [e0|].
  { eexists _, _. split; [done|]. by split_and!. }
  cbn [headerBuffer set_headerBuffer set_Conn Conn readBuffer httpResponseDone].
  pose proof (Index_bound _ _ Hi) as Hbound. change (Len CRLFCRLF) with 4 in Hbound.
  rewrite (Index_app _ chunk _ Hi).
  rewrite (proj2 (Z.eqb_neq _ _)) by lia.
  rewrite take_app_le by (unfold Len in Hbound; lia).
  destruct (http.ReadResponse _) as [resp|msg] eqn:Hr.
  - specialize (Hresp resp eq_refl).
    rewrite (proj2 (Z.eqb_neq _ _) Hresp). cbn [negb].
    eexists _, _. split; [done|]. split_and!; try done; cbn.
    + by rewrite Index_app.
    + rewrite Index_app by done.
      rewrite take_app_le by (unfold Len in Hbound; lia).
      rewrite Hr. by intros resp' [= <-].
  - eexists _, _. split; [done|]. split_and!; try done; cbn.
    + by rewrite Index_app.
    + rewrite Index_app by done.
      rewrite take_app_le by (unfold Len in Hbound; lia).
      by rewrite Hr.
Qed.

Lemma rejected_Reads c caps :
  rejected c →
  ∃ rs c', Reads c caps = Some (rs, c') ∧ Forall refused rs ∧ rejected c'.
Proof.
  revert c. induction caps as [|cap caps IH]; intros c Hrej.
  - by eexists _, _.
  - cbn [Reads]. destruct (rejected_Read c cap Hrej) as (e & c1 & -> & Hrej1). cbn.
    destruct (IH c1 Hrej1) as (rs & c2 & -> & Hall & Hrej2). cbn.
    eexists _, _. split; [done|]. split; [|done].
    constructor; [|done]. by split.
Qed.

(** X12.  The kind of a [Read] error tells whether the tunnel exists.  A
    failing [Read] returns a [SpeculativeTLSError] exactly when the response
    is still not stripped after the call; after the strip every error is the
    wrapped connection's own.  The [Op] of a speculative read error is "read",
    "parse" or "status"; its [StatusCode] is 0 unless the [Op] is "status",
    and then it is not 200. *)
Theorem X12_speculative_error_iff_not_stripped :
  ∀ (c : SpeculativeConn) (cap : Z),
    ∃ bs e c',
      SpeculativeConn_Read c cap = Some ((bs, e), c')
      ∧ (e ≠ None →
         (IsSpeculativeTLSError e = true ↔ httpResponseDone c' = false))
      ∧ (∀ s, e = Some (Speculative s) →
           Op s ∈ read_ops
           ∧ (Op s ≠ "status"%string → StatusCode s = 0)
           ∧ (Op s = "status"%string → StatusCode s ≠ http.StatusOK)).
Proof.
  intros c cap.
  destruct (Read_kind c cap) as (bs & e & c' & Hr & _ & _ & Hiff & _ & Hop).
  by eexists _, _, _.
Qed.

(** X13.  A rejected answer is never undone.  If a [Read] fails with [Op]
    "status", or with [Op] "parse" because the response reader failed, then
    the answer stays in the header buffer, and every later [Read], whatever
    arrives afterwards, hands out nothing and fails with a
    [SpeculativeTLSError]: no byte of the wrapped connection reaches the
    caller. *)
Theorem X13_rejection_is_final :
  ∀ (c : SpeculativeConn) (cap : Z) (bs : list byte) (s : SpeculativeTLSError)
    (c1 : SpeculativeConn) (caps : list Z),
    SpeculativeConn_Read c cap = Some ((bs, Some (Speculative s)), c1) →
    Op s = "status"%string ∨ (∃ m, Err s = Some (HTTPErr m)) →
    ∃ rs c2,
      Reads c1 caps = Some (rs, c2)
      ∧ Forall refused rs
      ∧ httpResponseDone c2 = false ∧ readBuffer c2 = [].
Proof.
  intros c cap bs s c1 caps Hread Hop.
  apply Read_speculative in Hread as (Hd & Hrb & Hrun).
  apply (readAndStrip_kind _ _ _ _ Hd Hrb) in Hrun as [_ Hk].
  destruct Hk as (_ & _ & _ & _ & _ & _ & Hrej).
  destruct (rejected_Reads c1 caps (Hrej Hop)) as (rs & c2 & Hr & Hall & Hrej2).
  exists rs, c2. destruct Hrej2 as (? & ? & _). by split_and!.
Qed.

End ReadShape.

Section RejectionOnStreams.
Import Bytes Transport TransportSpec.

Lemma X13_witness_407_then_data :
  ∃ rs c2,
    Reads (reader := http.statusLineReader) deniedConn_after [1024; 1024]
    = Some (rs, c2)
    ∧ Forall refused rs
    ∧ httpResponseDone c2 = false ∧ readBuffer c2 = [].
Proof.
  apply (X13_rejection_is_final (reader := http.statusLineReader)
           deniedConn 1024 []
           {| Op := "status"; StatusCode := 407;
              Err := Some (Errorf "407 Proxy Authentication Required") |}
           deniedConn_after [1024; 1024]).
  - vm_compute. reflexivity.
  - left. reflexivity.
Defined.

End RejectionOnStreams.

Section ReadWriteFrames.
Import Bytes Transport TransportSpec.
Context {reader : http.Reader}.

Lemma conn_Read_keeps_write_side conn cap :
  written (conn_Read conn cap).2 = written conn
  ∧ outcomes (conn_Read conn cap).2 = outcomes conn.
Proof.
  destruct conn as [inc wr oc]. unfold conn_Read. cbn [incoming].
  destruct inc as [|[d|e] rest]; cbn; try done.
  by destruct (_ <=? _).
Qed.

Lemma readAndStrip_keeps_write_side fuel c cap res :
  readAndStrip fuel c cap = Some res →
  write_side res.2 = write_side c ∧ connectRequest res.2 = connectRequest c.
Proof.
  revert c. induction fuel as [|fuel IH]; intros c; [done|].
  cbn [readAndStrip].
  pose proof (conn_Read_keeps_write_side (Conn c) tempBufSize) as [Hw Ho].
  destruct (conn_Read (Conn c) tempBufSize) as [[chunk err] conn'].
  cbn [snd] in Hw, Ho.
  assert (Hws : ∀ c', Conn c' = conn' → firstWrite c' = firstWrite c →
                      write_side c' = write_side c).
  { intros c' Hc Hf. unfold write_side. by rewrite Hc, Hf, Hw, Ho. }
  destruct err as [e0|]; [intros [= <-]; split; [by apply Hws|done]|].
  cbn [headerBuffer set_headerBuffer set_Conn Conn readBuffer httpResponseDone].
  set (hb := headerBuffer c ++ chunk).
  destruct (Index hb CRLFCRLF =? -1).
  { destruct (Len hb >? headerLimit); [intros [= <-]; split; [by apply Hws|done]|].
    intros Hrun. apply IH in Hrun as [-> ->]. split; [by apply Hws|done]. }
  destruct (http.ReadResponse _) as [resp|msg];
    [|intros [= <-]; split; [by apply Hws|done]].
  destruct (negb _); [intros [= <-]; split; [by apply Hws|done]|].
  destruct (Len _ >? 0).
  - destruct (_ <? _); intros [= <-]; (split; [by apply Hws|done]).
  - cbn [headerBuffer set_headerBuffer set_Conn Conn readBuffer
         httpResponseDone set_httpResponseDone set_readBuffer].
    pose proof (conn_Read_keeps_write_side conn' cap) as [Hw2 Ho2].
    destruct (conn_Read conn' cap) as [[got err] conn''].
    cbn [snd] in Hw2, Ho2. intros [= <-]. split; [|done].
    unfold write_side. cbn. by rewrite Hw2, Ho2, Hw, Ho.
Qed.

Lemma Read_keeps_write_side c cap res :
  SpeculativeConn_Read c cap = Some res →
  write_side res.2 = write_side c ∧ connectRequest res.2 = connectRequest c.
Proof.
  unfold SpeculativeConn_Read, readAndStripHTTPResponse.
  destruct (Len (readBuffer c) >? 0); [by intros [= <-]|].
  destruct (negb (httpResponseDone c)).
  - apply readAndStrip_keeps_write_side.
  - pose proof (conn_Read_keeps_write_side (Conn c) cap) as [Hw Ho].
    destruct (conn_Read (Conn c) cap) as [[got err] conn'].
    cbn [snd] in Hw, Ho. intros [= <-]. split; [|done].
    unfold write_side. cbn. by rewrite Hw, Ho.
Qed.

(** What a write leaves alone, and the one buffer it hands on. *)
Lemma Write_frame c b :
  httpResponseDone (SpeculativeConn_Write c b).2 = httpResponseDone c
  ∧ readBuffer (SpeculativeConn_Write c b).2 = readBuffer c
  ∧ headerBuffer (SpeculativeConn_Write c b).2 = headerBuffer c
  ∧ connectRequest (SpeculativeConn_Write c b).2 = connectRequest c
  ∧ incoming (Conn (SpeculativeConn_Write c b).2) = incoming (Conn c)
  ∧ written (Conn (SpeculativeConn_Write c b).2)
    = written (Conn c) ++ [if firstWrite c then b else connectRequest c ++ b].
Proof.
  unfold SpeculativeConn_Write, conn_Write.
  destruct (firstWrite c); cbn [negb];
    destruct (outcomes (Conn c)) as [|[|n e] os]; by cbn.
Qed.

(** X14.  [Read] and [Write] work on disjoint parts of the connection (they
    hold the same mutex, so calls do not overlap).  A [Read], however many
    reads of the wrapped connection it needs, writes nothing to the wrapped
    connection and leaves [firstWrite] and the CONNECT request as they are.
    A [Write] reads nothing from the wrapped connection, leaves
    [httpResponseDone], the read buffer and the header buffer as they are,
    and hands the wrapped connection exactly one buffer: [b] once a write
    has gone through, the CONNECT request followed by [b] before. *)
Theorem X14_read_and_write_touch_disjoint_state :
  ∀ (c : SpeculativeConn) (b : list byte) (cap : Z)
    (r : list byte * option error) (c' : SpeculativeConn),
    SpeculativeConn_Read c cap = Some (r, c') →
    (firstWrite c' = firstWrite c
     ∧ connectRequest c' = connectRequest c
     ∧ written (Conn c') = written (Conn c)
     ∧ outcomes (Conn c') = outcomes (Conn c))
    ∧ (httpResponseDone (SpeculativeConn_Write c b).2 = httpResponseDone c
       ∧ readBuffer (SpeculativeConn_Write c b).2 = readBuffer c
       ∧ headerBuffer (SpeculativeConn_Write c b).2 = headerBuffer c
       ∧ connectRequest (SpeculativeConn_Write c b).2 = connectRequest c
       ∧ incoming (Conn (SpeculativeConn_Write c b).2) = incoming (Conn c)
       ∧ written (Conn (SpeculativeConn_Write c b).2)
         = written (Conn c) ++ [if firstWrite c then b else connectRequest c ++ b]).
Proof.
  intros c b cap r c' Hread. split.
  - apply Read_keeps_write_side in Hread as [Hws HR]. cbn [snd] in Hws, HR.
    unfold write_side in Hws. injection Hws as Hf Hw Ho. by split_and!.
  - apply Write_frame.
Qed.

End ReadWriteFrames.

Section FramesOnStreams.
Import Bytes Transport TransportSpec.

Lemma X14_witness_denied_read :
  (firstWrite deniedConn_after = firstWrite deniedConn
   ∧ connectRequest deniedConn_after = connectRequest deniedConn
   ∧ written (Conn deniedConn_after) = written (Conn deniedConn)
   ∧ outcomes (Conn deniedConn_after) = outcomes (Conn deniedConn))
  ∧ (httpResponseDone (SpeculativeConn_Write deniedConn serverHello).2
     = httpResponseDone deniedConn
     ∧ readBuffer (SpeculativeConn_Write deniedConn serverHello).2
       = readBuffer deniedConn
     ∧ headerBuffer (SpeculativeConn_Write deniedConn serverHello).2
       = headerBuffer deniedConn
     ∧ connectRequest (SpeculativeConn_Write deniedConn serverHello).2
       = connectRequest deniedConn
     ∧ incoming (Conn (SpeculativeConn_Write deniedConn serverHello).2)
       = incoming (Conn deniedConn)
     ∧ written (Conn (SpeculativeConn_Write deniedConn serverHello).2)
       = written (Conn deniedConn)
         ++ [if firstWrite deniedConn then serverHello
             else connectRequest deniedConn ++ serverHello]).
Proof.
  apply (X14_read_and_write_touch_disjoint_state
           (reader := http.statusLineReader) deniedConn serverHello 1024
           ([], Some (Speculative
                  {| Op := "status"; StatusCode := 407;
                     Err := Some (Errorf "407 Proxy Authentication Required") |}))
           deniedConn_after).
  vm_compute. reflexivity.
Defined.

End FramesOnStreams.

Section FailedWrites.
Import Bytes Transport TransportSpec.

(** X15.  Until a write has gone through, every [Write] is a first write.
    While the wrapped connection rejects the writes, each [Write b] hands it
    the CONNECT request followed by [b] again, reports 0 bytes written
    whatever the wrapped connection took, returns a [SpeculativeTLSError]
    with [Op] "write" around the connection's error, and leaves the flag
    unset. *)
Theorem X15_failed_first_write_is_repeated :
  ∀ (c : SpeculativeConn) (bs : list (list byte))
    (rej : list (Z * conn_error)) (rest : list WriteOutcome),
    firstWrite c = false →
    outcomes (Conn c) = ((λ r, Reject r.1 r.2) <$> rej) ++ rest →
    length bs = length rej →
    (Writes c bs).1 = (λ r, (0, write_error r.2)) <$> rej
    ∧ written (Conn (Writes c bs).2)
      = written (Conn c) ++ ((λ b, connectRequest c ++ b) <$> bs)
    ∧ outcomes (Conn (Writes c bs).2) = rest
    ∧ firstWrite (Writes c bs).2 = false
    ∧ connectRequest (Writes c bs).2 = connectRequest c.
Proof.
  intros c bs. revert c.
  induction bs as [|b bs IH]; intros c rej rest Hf Ho Hlen.
  - destruct rej; [|done]. cbn in *. by rewrite app_nil_r.
  - destruct rej as [|[n e] rej]; [done|]. cbn [Writes].
    assert (Hstep : SpeculativeConn_Write c b
              = ((0, write_error e),
                 set_Conn c {| incoming := incoming (Conn c);
                               written := written (Conn c) ++ [connectRequest c ++ b];
                               outcomes := ((λ r, Reject r.1 r.2) <$> rej) ++ rest |})).
    { unfold SpeculativeConn_Write, conn_Write. rewrite Hf, Ho. by cbn. }
    rewrite Hstep.
    specialize (IH (set_Conn c {| incoming := incoming (Conn c);
                               written := written (Conn c) ++ [connectRequest c ++ b];
                               outcomes := ((λ r, Reject r.1 r.2) <$> rej) ++ rest |})
                   rej rest Hf eq_refl ltac:(by injection Hlen)).
    destruct (Writes _ bs) as [rs c2]. cbn in IH |- *.
    destruct IH as (-> & -> & -> & -> & ->).
    split_and!; try done. by rewrite <- app_assoc.
Qed.

Lemma X15_witness_two_rejections :
  (Writes flakyConn [serverHello; serverHello]).1
  = (λ r, (0, write_error r.2)) <$> [(10, NetError "broken pipe"); (0, EOF)]
  ∧ written (Conn (Writes flakyConn [serverHello; serverHello]).2)
    = written (Conn flakyConn)
      ++ ((λ b, connectRequest flakyConn ++ b) <$> [serverHello; serverHello])
  ∧ outcomes (Conn (Writes flakyConn [serverHello; serverHello]).2) = [Accept]
  ∧ firstWrite (Writes flakyConn [serverHello; serverHello]).2 = false
  ∧ connectRequest (Writes flakyConn [serverHello; serverHello]).2
    = connectRequest flakyConn.
Proof.
  apply (X15_failed_first_write_is_repeated flakyConn [serverHello; serverHello]
           [(10, NetError "broken pipe"); (0, EOF)] [Accept]).
  - reflexivity.
  - reflexivity.
  - reflexivity.
Defined.

End FailedWrites.
(* ===================================================================== *)
(** * The per-address dial budget *)
(* ===================================================================== *)

Section DialProperties.
Import Dial.

(** C6.  With a deadline, the per-address timeout is the smaller of the
    remaining budget divided by the number of remaining addresses and ten
    seconds.  With a budget of 6 s and 3 addresses the first address gets 2 s;
    when every dial uses up its timeout, the three attempts start at 0 s, 2 s
    and 4 s with 2 s each, so two further attempts follow the first one and
    both start before the 6 s are over. *)
Theorem C6_per_address_timeout :
  (∀ (now d remaining : Z),
      remaining ≠ 0 →
      perAddrTimeout now {| deadline := Some d |} remaining
      = Some (Z.min ((d - now) ÷ remaining) (10 * Second)))
  ∧ perAddrTimeout 0 {| deadline := Some (6 * Second) |} 3 = Some (2 * Second)
  ∧ simulateDial (6 * Second) 3
    = [ {| started := 0; timeout := 2 * Second |};
        {| started := 2 * Second; timeout := 2 * Second |};
        {| started := 4 * Second; timeout := 2 * Second |} ]
  ∧ (∃ first further,
        simulateDial (6 * Second) 3 = first :: further
        ∧ (2 ≤ length further)%nat
        ∧ Forall (λ a, started a < 6 * Second) further).
Proof.
  split_and!.
  - intros now d remaining Hrem. unfold perAddrTimeout. cbn [deadline].
    rewrite (proj2 (Z.eqb_neq _ _) Hrem). f_equal.
    destruct (_ <? _) eqn:E; [apply Z.ltb_lt in E|apply Z.ltb_ge in E]; lia.
  - reflexivity.
  - reflexivity.
  - exists {| started := 0; timeout := 2 * Second |},
           [ {| started := 2 * Second; timeout := 2 * Second |};
             {| started := 4 * Second; timeout := 2 * Second |} ].
    split; [reflexivity|]. split; [cbn [length]; lia|].
    by repeat constructor.
Qed.

(** The division at the second address of the scenario: 4 s are left for two
    addresses. *)
Lemma C6_witness_second_address :
  perAddrTimeout (2 * Second) {| deadline := Some (6 * Second) |} 2
  = Some (Z.min ((6 * Second - 2 * Second) ÷ 2) (10 * Second)).
Proof.
  apply (proj1 C6_per_address_timeout (2 * Second) (6 * Second) 2).
  discriminate.
Defined.

(** The timeouts of the table of [TestPerAddressTimeoutCalculation]. *)
Example perAddrTimeout_table :
  perAddrTimeout 0 {| deadline := Some (30 * Second) |} 3 = Some (10 * Second)
  ∧ perAddrTimeout 0 {| deadline := Some (60 * Second) |} 2 = Some (10 * Second)
  ∧ perAddrTimeout 0 {| deadline := Some (5 * Second) |} 1 = Some (5 * Second)
  ∧ perAddrTimeout 0 {| deadline := None |} 3 = Some (10 * Second).
Proof. by split_and!. Qed.

End DialProperties.
(* ===================================================================== *)
(** * The per-address dial budget, for every budget and number of addresses *)
(* ===================================================================== *)

Section DialBudget.
Import Dial.

Lemma perAddrTimeout_within now B remaining :
  0 < remaining → now ≤ B →
  ∃ per, perAddrTimeout now {| deadline := Some B |} remaining = Some per
         ∧ per = Z.min ((B - now) / remaining) (10 * Second)
         ∧ 0 ≤ per ∧ now + per ≤ B.
Proof.
  intros Hrem Hnow. unfold perAddrTimeout. cbn [deadline].
  rewrite (proj2 (Z.eqb_neq _ _)) by lia.
  rewrite Z.quot_div_nonneg by lia.
  pose proof (Z.div_pos (B - now) remaining ltac:(lia) Hrem) as Hq.
  pose proof (Z.mul_div_le (B - now) remaining Hrem) as Hm.
  eexists. split; [done|].
  assert (H10 : 0 < 10 * Second) by done.
  destruct (_ <? _) eqn:E; [apply Z.ltb_lt in E|apply Z.ltb_ge in E];
    split_and!; nia.
Qed.

Lemma dialLoop_fair B n now i left q :
  0 ≤ now ≤ B → n - i = Z.of_nat left →
  (left ≠ O → q ≤ (B - now) / Z.of_nat left) →
  length (dialLoop {| deadline := Some B |} n now i left) = left
  ∧ Forall (λ a, Z.min q (10 * Second) ≤ timeout a ≤ 10 * Second
                 ∧ 0 ≤ timeout a
                 ∧ now ≤ started a ∧ started a + timeout a ≤ B)
      (dialLoop {| deadline := Some B |} n now i left).
Proof.
  revert now i. induction left as [|left IH]; intros now i Hnow Hi Hq.
  - by split.
  - cbn [dialLoop].
    destruct (perAddrTimeout_within now B (n - i) ltac:(lia) ltac:(lia))
      as (per & -> & Hper & H0 & HB).
    cbn [WithTimeout deadline].
    replace (Z.max now (Z.min B (now + per))) with (now + per) by lia.
    rewrite Hi in Hper. specialize (Hq ltac:(done)).
    assert (Hnext : left ≠ O → q ≤ (B - (now + per)) / Z.of_nat left).
    { intros Hl. apply Z.div_le_lower_bound; [lia|].
      pose proof (Z.mul_div_le (B - now) (Z.of_nat (S left)) ltac:(lia)) as Hm.
      nia. }
    destruct (IH (now + per) (i + 1) ltac:(lia) ltac:(lia) Hnext) as [Hlen Hall].
    split; [cbn [length]; by rewrite Hlen|].
    constructor.
    + cbn [started timeout]. split_and!; lia.
    + eapply Forall_impl; [exact Hall|]. cbn beta. intros a Ha. lia.
Qed.

(** X16.  The budget division is fair for every non-negative budget and every
    number of addresses, when each dial uses up its timeout: there is one
    attempt per address; every attempt gets at least the smaller of the equal
    share of the whole budget and ten seconds, and at most ten seconds; and
    no attempt is given time beyond the deadline. *)
Theorem X16_every_address_gets_its_share :
  ∀ (totalTimeout : Duration) (numAddrs : nat),
    0 ≤ totalTimeout →
    length (simulateDial totalTimeout numAddrs) = numAddrs
    ∧ Forall (λ a, Z.min (totalTimeout / Z.of_nat numAddrs) (10 * Second)
                     ≤ timeout a ≤ 10 * Second
                   ∧ 0 ≤ timeout a
                   ∧ 0 ≤ started a ∧ started a + timeout a ≤ totalTimeout)
        (simulateDial totalTimeout numAddrs).
Proof.
  intros B n HB. unfold simulateDial.
  apply dialLoop_fair; [lia|lia|].
  intros _. by rewrite Z.sub_0_r.
Qed.

Lemma X16_witness_half_second_three_addresses :
  length (simulateDial (500 * Millisecond) 3) = 3%nat
  ∧ Forall (λ a, Z.min (500 * Millisecond / Z.of_nat 3) (10 * Second)
                   ≤ timeout a ≤ 10 * Second
                 ∧ 0 ≤ timeout a
                 ∧ 0 ≤ started a ∧ started a + timeout a ≤ 500 * Millisecond)
      (simulateDial (500 * Millisecond) 3).
Proof.
  apply (X16_every_address_gets_its_share (500 * Millisecond) 3).
  vm_compute. discriminate.
Defined.

End DialBudget.
(* ===================================================================== *)
(** * The SOCKS5 UDP header *)
(* ===================================================================== *)

Section ProxyProperties.
Import Bytes Net Proxy.

Lemma Z_of_byte_range b : 0 ≤ Z_of_byte b < 256.
Proof. unfold Z_of_byte. pose proof (Byte.to_N_bounded b). lia. Qed.

Lemma Z_of_byte_of_Z v : 0 ≤ v < 256 → Z_of_byte (byte_of_Z v) = v.
Proof.
  intros Hv. unfold Z_of_byte, byte_of_Z. rewrite Z.mod_small by done.
  destruct (Byte.of_N (Z.to_N v)) as [b|] eqn:E; cbn [default from_option id].
  - apply Byte.to_of_N in E. rewrite E. lia.
  - apply Byte.of_N_None_iff in E. lia.
Qed.

Lemma Uint16_PutUint16 p :
  0 ≤ p < 65536 →
  ∃ hi lo, PutUint16 p = [hi; lo] ∧ Uint16 hi lo = p.
Proof.
  intros Hp. exists (byte_of_Z (p / 256)), (byte_of_Z p).
  unfold PutUint16, Uint16. rewrite (Z.mod_small p 65536) by done.
  split; [done|].
  rewrite Z_of_byte_of_Z by (split; [apply Z.div_pos|apply Z.div_lt_upper_bound]; lia).
  unfold Z_of_byte, byte_of_Z.
  destruct (Byte.of_N (Z.to_N (p mod 256))) as [b|] eqn:E; cbn [default from_option id].
  - apply Byte.to_of_N in E. rewrite E.
    pose proof (Z.mod_pos_bound p 256 ltac:(lia)).
    rewrite Z2N.id by lia. pose proof (Z.div_mod p 256 ltac:(lia)). lia.
  - apply Byte.of_N_None_iff in E.
    pose proof (Z.mod_pos_bound p 256 ltac:(lia)). lia.
Qed.

Lemma list_of_length_4 (l : list byte) :
  Len l = 4 → ∃ a b c d, l = [a; b; c; d].
Proof.
  unfold Len. intros H.
  do 4 (destruct l as [|? l]; [cbn in H; lia|]).
  destruct l; [by eexists _, _, _, _|cbn in H; lia].
Qed.

Lemma parse_ipv4 a b c d hi lo data :
  parseSOCKS5UDPHeader ([x00; x00; x00; ATYP_IPv4; a; b; c; d; hi; lo] ++ data)
  = inl (10, {| IP := [a; b; c; d]; Port := Uint16 hi lo |}).
Proof.
  unfold parseSOCKS5UDPHeader.
  assert ((Len ([x00; x00; x00; ATYP_IPv4; a; b; c; d; hi; lo] ++ data) <? 10) = false)
    as ->.
  { apply Z.ltb_ge. rewrite Len_app, !Len_cons, Len_nil.
    pose proof (Len_nonneg data). lia. }
  reflexivity.
Qed.

Lemma parse_ipv6 ip hi lo data :
  Len ip = 16 →
  parseSOCKS5UDPHeader ([x00; x00; x00; ATYP_IPv6] ++ ip ++ [hi; lo] ++ data)
  = inl (22, {| IP := ip; Port := Uint16 hi lo |}).
Proof.
  unfold Len. intros H.
  do 16 (destruct ip as [|? ip]; [cbn in H; lia|]).
  destruct ip; [|cbn in H; lia].
  unfold parseSOCKS5UDPHeader.
  match goal with |- context [Len ?l <? 10] =>
    assert ((Len l <? 10) = false) as ->; [|assert ((Len l <? 22) = false) as ->] end.
  { apply Z.ltb_ge. cbn [app]. rewrite !Len_cons.
    pose proof (Len_nonneg data). lia. }
  { apply Z.ltb_ge. cbn [app]. rewrite !Len_cons.
    pose proof (Len_nonneg data). lia. }
  reflexivity.
Qed.

Lemma Equal_refl ip : Equal ip ip = true.
Proof. unfold Equal. rewrite Z.eqb_refl. by apply bool_decide_eq_true_2. Qed.

Lemma Equal_mapped x :
  Len x = 16 → take 12 x = v4InV6Prefix → Equal (drop 12 x) x = true.
Proof.
  intros H16 Hpre. unfold Equal.
  assert (Len (drop 12 x) = 4) as ->.
  { unfold Len in *. rewrite length_drop. lia. }
  rewrite H16. cbn [Z.eqb Pos.eqb andb].
  by rewrite !bool_decide_eq_true_2.
Qed.

(** The header built for a valid address, by the form of its IP. *)
Lemma build_cases addr :
  valid_addr addr →
  ∃ hi lo, PutUint16 (Port addr) = [hi; lo] ∧ Uint16 hi lo = Port addr
    ∧ ((∃ a b c d,
          To4 (IP addr) = Some [a; b; c; d]
          ∧ buildSOCKS5UDPHeader addr
            = [x00; x00; x00; ATYP_IPv4; a; b; c; d; hi; lo]
          ∧ Equal [a; b; c; d] (IP addr) = true)
       ∨ (To4 (IP addr) = None ∧ Len (IP addr) = 16
          ∧ buildSOCKS5UDPHeader addr
            = [x00; x00; x00; ATYP_IPv6] ++ IP addr ++ [hi; lo])).
Proof.
  intros [Hip Hport]. destruct (Uint16_PutUint16 _ Hport) as (hi & lo & Hput & Hget).
  exists hi, lo. split; [done|]. split; [done|].
  unfold buildSOCKS5UDPHeader, To4, To16. rewrite Hput.
  destruct Hip as [H4|H16].
  - left. destruct (list_of_length_4 _ H4) as (a & b & c & d & Hl).
    exists a, b, c, d. rewrite H4, <- Hl. cbn [Z.eqb Pos.eqb].
    split_and!; [done|by rewrite Hl|apply Equal_refl].
  - rewrite H16. cbn [Z.eqb Pos.eqb andb].
    destruct (bool_decide (take 12 (IP addr) = v4InV6Prefix)) eqn:Hmapped.
    + left. apply bool_decide_eq_true_1 in Hmapped.
      assert (Hd : Len (drop 12 (IP addr)) = 4).
      { unfold Len in *. rewrite length_drop. lia. }
      destruct (list_of_length_4 _ Hd) as (a & b & c & d & Hl).
      exists a, b, c, d. rewrite <- Hl.
      split_and!; [done|by rewrite Hl|by apply Equal_mapped].
    + right. split_and!; try done. cbn [default from_option id].
      rewrite take_app_le, take_ge by (unfold Len in H16; lia). done.
Qed.

(** C7.  For every UDP address with an IP of 4 or 16 bytes and a 16-bit port,
    and for any payload: parsing the header built for the address, followed
    by the payload, succeeds; the offset is the length of the header, so what
    lies behind it is the payload; the port is the same and the IP is the
    same address ([IP.Equal]: an IPv4 address comes back in its 4-byte form);
    and building the header of the parsed address gives the same bytes again.
    For 1.2.3.4:443 the header is 00 00 00 01 01 02 03 04 01 BB and parsing it
    gives offset 10 and 1.2.3.4:443. *)
Theorem C7_socks5_udp_header_round_trip :
  (∀ (addr : UDPAddr) (data : list byte),
      valid_addr addr →
      ∃ parsed,
        parseSOCKS5UDPHeader (buildSOCKS5UDPHeader addr ++ data)
        = inl (Len (buildSOCKS5UDPHeader addr), parsed)
        ∧ Equal (IP parsed) (IP addr) = true
        ∧ Port parsed = Port addr
        ∧ buildSOCKS5UDPHeader parsed = buildSOCKS5UDPHeader addr
        ∧ drop (length (buildSOCKS5UDPHeader addr))
               (buildSOCKS5UDPHeader addr ++ data) = data)
  ∧ buildSOCKS5UDPHeader addr_1_2_3_4_443
    = [x00; x00; x00; x01; x01; x02; x03; x04; x01; xbb]
  ∧ parseSOCKS5UDPHeader (buildSOCKS5UDPHeader addr_1_2_3_4_443)
    = inl (10, {| IP := [x01; x02; x03; x04]; Port := 443 |})
  ∧ Equal [x01; x02; x03; x04] (IP addr_1_2_3_4_443) = true.
Proof.
  split_and!; [|reflexivity..].
  intros addr data Hvalid.
  destruct (build_cases addr Hvalid) as (hi & lo & Hput & Hget & Hcase).
  destruct Hcase as [(a & b & c & d & H4 & Hb & Heq)|(Hnone & H16 & Hb)].
  - exists {| IP := [a; b; c; d]; Port := Port addr |}.
    rewrite Hb, parse_ipv4, Hget. cbn [IP Port]. split_and!; try done.
    unfold buildSOCKS5UDPHeader. cbn [IP Port]. unfold To4.
    rewrite !Len_cons, Len_nil. cbn [Z.add Z.eqb Pos.add Pos.succ Pos.eqb].
    by rewrite Hput.
  - exists {| IP := IP addr; Port := Port addr |}.
    rewrite Hb, <- !app_assoc, parse_ipv6, Hget by done.
    cbn [IP Port]. split_and!.
    + do 2 f_equal. rewrite !Len_app, !Len_cons, Len_nil, H16. done.
    + unfold Equal. rewrite Z.eqb_refl. by rewrite bool_decide_eq_true_2.
    + done.
    + by destruct addr.
    + rewrite !app_assoc. by rewrite drop_app_length.
Qed.

(** The round trip of an IPv6 address of the repository's tests. *)
Lemma C7_witness_ipv6 :
  ∃ parsed,
    parseSOCKS5UDPHeader (buildSOCKS5UDPHeader addr_2001_db8_1_80 ++ bytes "Hello, World!")
    = inl (Len (buildSOCKS5UDPHeader addr_2001_db8_1_80), parsed)
    ∧ Equal (IP parsed) (IP addr_2001_db8_1_80) = true
    ∧ Port parsed = Port addr_2001_db8_1_80
    ∧ buildSOCKS5UDPHeader parsed = buildSOCKS5UDPHeader addr_2001_db8_1_80
    ∧ drop (length (buildSOCKS5UDPHeader addr_2001_db8_1_80))
           (buildSOCKS5UDPHeader addr_2001_db8_1_80 ++ bytes "Hello, World!")
      = bytes "Hello, World!".
Proof.
  apply (proj1 C7_socks5_udp_header_round_trip addr_2001_db8_1_80 (bytes "Hello, World!")).
  split; [right; reflexivity|]. split; vm_compute; [discriminate|reflexivity].
Defined.

End ProxyProperties.
(* ===================================================================== *)
(** * The saved session state *)
(* ===================================================================== *)

Section SessionProperties.
Import Session.

Lemma member_app key (b1 b2 : Blob) :
  member key (b1 ++ b2)
  = match member key b1 with Some v => Some v | None => member key b2 end.
Proof.
  induction b1 as [|[k v] b1 IH]; cbn [app member]; [done|].
  by case_bool_decide.
Qed.

Lemma Unmarshal_Marshal st more :
  (∀ k v, (k, v) ∈ more → k ∉ ["version"; "created_at"; "updated_at"; "config";
                               "cookies"; "tls_sessions"; "ech_configs"]) →
  Unmarshal (Marshal st ++ more) = st.
Proof.
  intros Hmore.
  assert (Hother : ∀ k, k ∈ ["version"; "created_at"; "updated_at"; "config";
                             "cookies"; "tls_sessions"; "ech_configs"] →
                        member k more = None).
  { intros k Hk. induction more as [|[k' v'] more IH]; [done|].
    cbn [member]. rewrite bool_decide_eq_false_2.
    - apply IH. intros k0 v0 H0. apply (Hmore k0 v0). by right.
    - intros ->. apply (Hmore k v'); [by left|done]. }
  destruct st as [v ca ua cfg ck tls ech]. unfold Unmarshal.
  rewrite !member_app, !Hother by (rewrite !elem_of_cons; tauto).
  unfold Marshal.
  cbn [Version CreatedAt UpdatedAt Config Cookies TLSSessions ECHConfigs].
  case_bool_decide as Hech; [by rewrite Hech|done].
Qed.

Lemma Save_members now s :
  Unmarshal (Save now s) = state_of now s
  ∧ member "arbiter_hints" (Save now s) = Some (MHints (sHints s)).
Proof.
  split.
  - apply Unmarshal_Marshal. intros k v Hk.
    rewrite !elem_of_cons in Hk. rewrite !not_elem_of_cons.
    destruct Hk as [[= -> _]|[[= -> _]|Hk]]; [..|by apply elem_of_nil in Hk];
      split_and!; try done; apply not_elem_of_nil.
  - unfold Save. rewrite member_app. unfold Marshal, state_of. cbn [ECHConfigs].
    by case_bool_decide.
Qed.

(** What a save followed by a load gives back. *)
Lemma Load_Save now s : Load (Save now s) = inl s.
Proof.
  destruct (Save_members now s) as [Hst Hh].
  unfold Load. rewrite Hst, Hh. cbn. by destruct s.
Qed.

(** C1.  The blob written by a save has, alongside the format version, the
    configuration (preset and forced protocol), the cookie list, the ticket
    records keyed by origin and the ECH config map, a member that holds the
    arbiter-hint map.  For every session whose hint map marks an origin as
    in H3 cooldown, a save followed by a load yields the same session; in
    particular its hint map still marks that origin as in cooldown. *)
Theorem C1_cooldowns_persist_across_save_load :
  ∀ (now : Z) (s : Session) (origin : string),
    in_cooldown (sHints s) origin = true →
    (Version (Unmarshal (Save now s)) = SessionStateVersion
     ∧ Config (Unmarshal (Save now s))
       = Some {| Preset := sPreset s; ForceProtocol := sForceProtocol s |}
     ∧ Cookies (Unmarshal (Save now s)) = sCookies s
     ∧ TLSSessions (Unmarshal (Save now s)) = sTickets s
     ∧ ECHConfigs (Unmarshal (Save now s)) = sECHConfigs s
     ∧ member "arbiter_hints" (Save now s) = Some (MHints (sHints s)))
    ∧ ∃ s', Load (Save now s) = inl s'
        ∧ s' = s
        ∧ in_cooldown (sHints s') origin = true.
Proof.
  intros now s origin Hcool.
  destruct (Save_members now s) as [Hst Hh]. split.
  - rewrite Hst. by split_and!.
  - exists s. split; [apply Load_Save|]. by split.
Qed.

Lemma C1_witness_cooled_session :
  (Version (Unmarshal (Save 0 cooled_session)) = SessionStateVersion
   ∧ Config (Unmarshal (Save 0 cooled_session))
     = Some {| Preset := sPreset cooled_session;
               ForceProtocol := sForceProtocol cooled_session |}
   ∧ Cookies (Unmarshal (Save 0 cooled_session)) = sCookies cooled_session
   ∧ TLSSessions (Unmarshal (Save 0 cooled_session)) = sTickets cooled_session
   ∧ ECHConfigs (Unmarshal (Save 0 cooled_session)) = sECHConfigs cooled_session
   ∧ member "arbiter_hints" (Save 0 cooled_session)
     = Some (MHints (sHints cooled_session)))
  ∧ ∃ s', Load (Save 0 cooled_session) = inl s'
      ∧ s' = cooled_session
      ∧ in_cooldown (sHints s') "y.test" = true.
Proof.
  apply (C1_cooldowns_persist_across_save_load 0 cooled_session "y.test").
  unfold in_cooldown, cooled_session. cbn [sHints].
  rewrite lookup_singleton_eq. reflexivity.
Defined.

End SessionProperties.
(* ===================================================================== *)
(** * The global key log writer *)
(* ===================================================================== *)

Section KeyLogFacts.
Import KeyLog.
Variable env : Env.

Lemma closeExisting_closed s :
  closed (closeExisting env s).2
  = closed s ++ match globalKeyLogWriter s with
                | Some w => if isCloser w then [w] else []
                | None => []
                end
  ∧ keyLogInitialized (closeExisting env s).2 = keyLogInitialized s
  ∧ opens (closeExisting env s).2 = opens s.
Proof.
  unfold closeExisting. destruct (globalKeyLogWriter s) as [w|]; cbn.
  - destruct (isCloser w); cbn; by rewrite ?app_nil_r.
  - by rewrite app_nil_r.
Qed.

(** What a replacing call does to the log of [Close] calls. *)
Lemma replacing_call_closed c s :
  replaces c = true →
  closed (call env c s)
  = closed s ++ match globalKeyLogWriter s with
                | Some w => if isCloser w then [w] else []
                | None => []
                end
  ∧ keyLogInitialized (call env c s) = keyLogInitialized s.
Proof.
  pose proof (closeExisting_closed s) as (Hc & Hi & _).
  destruct c as [| |path|w|path|]; try discriminate; intros _; cbn [call].
  - unfold SetKeyLogFile, OpenFile.
    destruct (bool_decide (path = "")); cbn; [done|].
    by destruct (openError env _ path); cbn.
  - by unfold SetKeyLogWriter.
  - unfold CloseKeyLog. destruct (closeExisting env s) as [err s']. cbn in *. by split.
Qed.

Lemma call_initialized c s :
  keyLogInitialized s = true →
  keyLogInitialized (call env c s) = true
  ∧ (replaces c = false → globalKeyLogWriter (call env c s) = globalKeyLogWriter s
                          ∧ closed (call env c s) = closed s).
Proof.
  intros Hi. destruct (replaces c) eqn:Hr.
  - destruct (replacing_call_closed c s Hr) as [_ ->]. by split.
  - destruct c as [| |path|w|path|]; try done; cbn [call].
    + unfold initKeyLogFromEnv. by rewrite Hi.
    + unfold NewKeyLogFileWriter, OpenFile.
      by destruct (openError env _ path).
Qed.

Lemma calls_closed_mono cs s w :
  w ∈ closed s → keyLogInitialized s = true → w ∈ closed (calls env cs s).
Proof.
  revert s. induction cs as [|c cs IH]; intros s Hw Hi; [done|].
  cbn [calls]. destruct (call_initialized c s Hi) as [Hi' Hkeep].
  apply IH; [|done]. destruct (replaces c) eqn:Hr.
  - destruct (replacing_call_closed c s Hr) as [-> _].
    apply elem_of_app. by left.
  - destruct (Hkeep eq_refl) as [_ ->]. done.
Qed.

(** X17.  The package owns whatever closer is in the global writer, whoever
    opened it.  Each of [SetKeyLogFile], [SetKeyLogWriter] and [CloseKeyLog]
    calls [Close] exactly once on the writer it finds if that writer is an
    [io.Closer], a writer supplied through [SetKeyLogWriter] included, and
    calls [Close] on nothing else; this is so whether or not the call then
    succeeds.  The other calls close nothing once the package is
    initialised. *)
Theorem X17_replaced_closer_is_closed_once :
  ∀ (c : Call) (s : State),
    (replaces c = true →
     closed (call env c s)
     = closed s ++ match globalKeyLogWriter s with
                   | Some w => if isCloser w then [w] else []
                   | None => []
                   end)
    ∧ (replaces c = false → keyLogInitialized s = true →
       closed (call env c s) = closed s
       ∧ globalKeyLogWriter (call env c s) = globalKeyLogWriter s).
Proof.
  intros c s. split.
  - intros Hr. by destruct (replacing_call_closed c s Hr).
  - intros Hr Hi. destruct (call_initialized c s Hi) as [_ Hkeep].
    by destruct (Hkeep Hr).
Qed.

(** X18.  No closer is leaked.  In a run of calls that starts after the
    package has been initialised, every [io.Closer] that was the global
    writer at some point of the run is, at the end of the run, either still
    the global writer or closed. *)
Theorem X18_no_writer_is_leaked :
  ∀ (cs : list Call) (s0 s : State) (w : Writer),
    keyLogInitialized s0 = true →
    s ∈ trace env cs s0 →
    globalKeyLogWriter s = Some w → isCloser w = true →
    globalKeyLogWriter (calls env cs s0) = Some w
    ∨ w ∈ closed (calls env cs s0).
Proof.
  intros cs. induction cs as [|c cs IH]; intros s0 s w Hi Hs Hw Hc.
  - cbn in Hs. apply list_elem_of_singleton in Hs as ->. by left.
  - cbn [trace] in Hs. cbn [calls].
    destruct (call_initialized c s0 Hi) as [Hi' Hkeep].
    apply elem_of_cons in Hs as [->|Hs]; [|by eapply IH].
    destruct (replaces c) eqn:Hr.
    + right. apply calls_closed_mono; [|done].
      destruct (replacing_call_closed c s0 Hr) as [-> _].
      rewrite Hw, Hc. apply elem_of_app. right. apply list_elem_of_here.
    + destruct (Hkeep eq_refl) as [Hsame _].
      apply (IH (call env c s0) (call env c s0) w Hi'); [|by rewrite Hsame|done].
      destruct cs; cbn [trace]; apply list_elem_of_here.
Qed.

(** X19.  The environment is consulted once.  [initKeyLogFromEnv] is
    idempotent, it leaves the package initialised, and from an initialised
    state it changes nothing, so that a failure to open the file named by
    [SSLKEYLOGFILE] is never retried.  From the initial state it installs a
    writer exactly when the variable is not empty and the file opens; the
    writer is then that file. *)
Theorem X19_environment_is_read_once :
  ∀ (s : State),
    initKeyLogFromEnv env (initKeyLogFromEnv env s) = initKeyLogFromEnv env s
    ∧ keyLogInitialized (initKeyLogFromEnv env s) = true
    ∧ (keyLogInitialized s = true → initKeyLogFromEnv env s = s)
    ∧ (GetKeyLogWriter (initKeyLogFromEnv env initial) ≠ None
       ↔ SSLKEYLOGFILE env ≠ ""%string
         ∧ openError env 0%nat (SSLKEYLOGFILE env) = None)
    ∧ (∀ w, GetKeyLogWriter (initKeyLogFromEnv env initial) = Some w →
            w = File 0 (SSLKEYLOGFILE env)).
Proof.
  intros s.
  assert (Hinit : keyLogInitialized (initKeyLogFromEnv env s) = true).
  { unfold initKeyLogFromEnv, OpenFile.
    destruct (keyLogInitialized s) eqn:Hi; [done|].
    case_bool_decide; [done|].
    by destruct (openError env _ _). }
  split_and!.
  - unfold initKeyLogFromEnv at 1. by rewrite Hinit.
  - done.
  - intros Hi. unfold initKeyLogFromEnv. by rewrite Hi.
  - unfold initKeyLogFromEnv, OpenFile, GetKeyLogWriter. cbn.
    case_bool_decide as Hp; cbn; [by intuition|].
    destruct (openError env 0%nat _); cbn; by intuition.
  - intros w. unfold initKeyLogFromEnv, OpenFile, GetKeyLogWriter. cbn.
    case_bool_decide as Hp; cbn; [done|].
    destruct (openError env 0%nat _); cbn; [done|]. by intros [= <-].
Qed.

End KeyLogFacts.

Section KeyLogRuns.
Import KeyLog.

Lemma X18_witness_custom_closer :
  globalKeyLogWriter
    (calls exampleEnv
       [CallSetWriter (Some (Custom 7 true)); CallSetFile "/forbidden"; CallGet]
       (initKeyLogFromEnv exampleEnv initial))
  = Some (Custom 7 true)
  ∨ Custom 7 true ∈
    closed
      (calls exampleEnv
         [CallSetWriter (Some (Custom 7 true)); CallSetFile "/forbidden"; CallGet]
         (initKeyLogFromEnv exampleEnv initial)).
Proof.
  apply (X18_no_writer_is_leaked exampleEnv
           [CallSetWriter (Some (Custom 7 true)); CallSetFile "/forbidden"; CallGet]
           (initKeyLogFromEnv exampleEnv initial)
           (SetKeyLogWriter exampleEnv (Some (Custom 7 true))
              (initKeyLogFromEnv exampleEnv initial))
           (Custom 7 true)).
  - reflexivity.
  - vm_compute. apply list_elem_of_further, list_elem_of_here.
  - reflexivity.
  - reflexivity.
Defined.

End KeyLogRuns.
(* ===================================================================== *)
(** * The session registry of the local proxy *)
(* ===================================================================== *)

Section RegistryFacts.
Import LocalProxy.
Local Open Scope string_scope.

Lemma lastIdentifier_snoc calls s id session :
  lastIdentifier (calls ++ [(s, id)]) session
  = if bool_decide (s = session) then Some id else lastIdentifier calls session.
Proof.
  induction calls as [|[s' id'] calls IH]; cbn [app lastIdentifier].
  - by case_bool_decide.
  - rewrite IH. case_bool_decide; [done|].
    by destruct (lastIdentifier calls session).
Qed.

Lemma coherent_injective p id id' s :
  coherent p →
  sessionRegistry p !! id = Some s → sessionRegistry p !! id' = Some s → id = id'.
Proof. intros Hco H1%Hco H2%Hco. congruence. Qed.

Lemma coherent_Unregister p id : coherent p → coherent (UnregisterSession id p).2.
Proof.
  intros Hco. unfold UnregisterSession.
  destruct (sessionRegistry p !! id) as [s|] eqn:Hid; [|done].
  intros id' s'. cbn. intros Hl. rewrite lastIdentifier_snoc.
  destruct (decide (id' = id)) as [->|Hne].
  { by rewrite lookup_delete_eq in Hl. }
  rewrite lookup_delete_ne in Hl by done.
  case_bool_decide as Hs; [|by apply Hco].
  subst s'. by destruct Hne; eapply coherent_injective.
Qed.

Lemma coherent_Register p id s :
  coherent p → (∀ id', sessionRegistry p !! id' ≠ Some s) →
  coherent (RegisterSession id s p).2.
Proof.
  intros Hco Hfresh. unfold RegisterSession.
  destruct (sessionRegistry p !! id) as [s0|] eqn:Hid; [done|].
  intros id' s'. cbn. intros Hl. rewrite lastIdentifier_snoc.
  destruct (decide (id' = id)) as [->|Hne].
  - rewrite lookup_insert_eq in Hl. injection Hl as <-.
    by rewrite bool_decide_eq_true_2.
  - rewrite lookup_insert_ne in Hl by done.
    rewrite bool_decide_eq_false_2; [by apply Hco|].
    intros <-. by apply (Hfresh id').
Qed.

(** X20.  Registering and unregistering are inverse on the registry.  An ID
    that is free can be registered; the session is then found under it, the
    other IDs are as before, and unregistering the ID returns the session and
    restores the map.  An ID that is taken is refused and nothing changes, no
    call of [SetSessionIdentifier] included; unregistering a free ID returns
    nothing and changes nothing. *)
Theorem X20_register_unregister_round_trip :
  ∀ (p : Registry) (sessionID : string) (session : SessionPtr),
    (sessionRegistry p !! sessionID = None →
       (RegisterSession sessionID session p).1 = None
       ∧ GetSession sessionID (RegisterSession sessionID session p).2 = Some session
       ∧ (∀ other, other ≠ sessionID →
            GetSession other (RegisterSession sessionID session p).2
            = GetSession other p)
       ∧ (UnregisterSession sessionID (RegisterSession sessionID session p).2).1
         = Some session
       ∧ sessionRegistry
           (UnregisterSession sessionID (RegisterSession sessionID session p).2).2
         = sessionRegistry p
       ∧ UnregisterSession sessionID p = (None, p))
    ∧ (sessionRegistry p !! sessionID ≠ None →
       RegisterSession sessionID session p = (Some (AlreadyExists sessionID), p)).
Proof.
  intros p id s. split.
  - intros Hfree. unfold RegisterSession, UnregisterSession, GetSession.
    rewrite Hfree. cbn. rewrite lookup_insert_eq. cbn.
    split_and!; try done.
    + intros other Hne. by rewrite lookup_insert_ne.
    + by rewrite delete_insert_id.
  - intros Htaken. unfold RegisterSession.
    by destruct (sessionRegistry p !! id).
Qed.

(** X21.  The identifier of a registered session is the ID it is registered
    under, as long as no session object is registered under two IDs.  If
    every registered session was last given its own ID, then this is still
    so after any [UnregisterSession] and after a [RegisterSession] of a
    session that is not in the registry; the session returned by
    [UnregisterSession] was last given the empty identifier.  Registering a
    session that is already registered under another ID breaks the
    property: the object is then registered under an ID that is not its
    identifier. *)
Theorem X21_identifier_follows_the_registry :
  ∀ (p : Registry),
    coherent p →
    (∀ sessionID, coherent (UnregisterSession sessionID p).2)
    ∧ (∀ sessionID session,
         (UnregisterSession sessionID p).1 = Some session →
         lastIdentifier (identifierCalls (UnregisterSession sessionID p).2) session
         = Some "")
    ∧ (∀ sessionID session,
         (∀ other, sessionRegistry p !! other ≠ Some session) →
         coherent (RegisterSession sessionID session p).2)
    ∧ (∀ sessionID other session,
         sessionID ≠ other →
         sessionRegistry p !! sessionID = None →
         sessionRegistry p !! other = Some session →
         ¬ coherent (RegisterSession sessionID session p).2).
Proof.
  intros p Hco. split_and!.
  - intros id. by apply coherent_Unregister.
  - intros id s. unfold UnregisterSession.
    destruct (sessionRegistry p !! id) as [s0|]; [|done]. cbn.
    intros [= ->]. rewrite lastIdentifier_snoc. by rewrite bool_decide_eq_true_2.
  - intros id s. by apply coherent_Register.
  - intros id other s Hne Hfree Hother Hco'.
    unfold RegisterSession in Hco'. rewrite Hfree in Hco'. cbn in Hco'.
    specialize (Hco' other s). cbn in Hco'.
    rewrite lookup_insert_ne, lastIdentifier_snoc in Hco' by done.
    rewrite bool_decide_eq_true_2 in Hco' by done.
    specialize (Hco' Hother). congruence.
Qed.

Lemma X21_witness_one_session :
  (∀ sessionID, coherent (UnregisterSession sessionID
                            (RegisterSession "session-1" 1%nat newRegistry).2).2)
  ∧ (∀ sessionID session,
       (UnregisterSession sessionID (RegisterSession "session-1" 1%nat newRegistry).2).1
       = Some session →
       lastIdentifier
         (identifierCalls
            (UnregisterSession sessionID
               (RegisterSession "session-1" 1%nat newRegistry).2).2) session
       = Some "")
  ∧ (∀ sessionID session,
       (∀ other, sessionRegistry (RegisterSession "session-1" 1%nat newRegistry).2
                 !! other ≠ Some session) →
       coherent (RegisterSession sessionID session
                   (RegisterSession "session-1" 1%nat newRegistry).2).2)
  ∧ (∀ sessionID other session,
       sessionID ≠ other →
       sessionRegistry (RegisterSession "session-1" 1%nat newRegistry).2 !! sessionID
       = None →
       sessionRegistry (RegisterSession "session-1" 1%nat newRegistry).2 !! other
       = Some session →
       ¬ coherent (RegisterSession sessionID session
                     (RegisterSession "session-1" 1%nat newRegistry).2).2).
Proof.
  apply (X21_identifier_follows_the_registry
           (RegisterSession "session-1" 1%nat newRegistry).2).
  intros sessionID session. vm_compute sessionRegistry. vm_compute identifierCalls.
  intros H. destruct (decide (sessionID = "session-1")) as [->|Hne].
  - vm_compute in H. injection H as <-. reflexivity.
  - exfalso. revert H. change (<["session-1" := 1%nat]> (∅ : gmap string SessionPtr) !! sessionID ≠ Some session).
    rewrite lookup_insert_ne by done. by rewrite lookup_empty.
Defined.

End RegistryFacts.
